(** * IPCClient: request/reply correlation over the child-process IPC channel

    A shallow embedding of [src/model/ipc/IPCClient.ts].  The class owns an
    [events.EventEmitter] (field [listener]) keyed by the decimal rendering
    of the request identifier; every [send] call creates one promise, one
    [once] listener and, when [timeout > 0], one [setTimeout] timer.  The
    Node runtime (event loop, [process.nextTick] queue, promise settlement,
    emitter bookkeeping) is modelled by explicit state passing. *)

From stdpp Require Import base option list gmap fin_maps strings pretty.
From Stdlib Require Import ZArith Lia.

Local Open Scope string_scope.
Local Open Scope list_scope.
Local Open Scope nat_scope.

(** ** Data model *)

(** Payloads crossing the channel are JSON values. *)
#[warnings="-register-all"]
Inductive JsValue : Type :=
| JNull
| JBool (b : bool)
| JNum (n : Z)
| JStr (s : string)
| JArr (items : list JsValue)
| JObj (fields : list (string * JsValue)).

(** [ClientMessageOption]: model tag, function tag, optional arguments. *)
Record ClientMessageOption := {
  model : string;
  func : string;
  args : option JsValue;
}.

(** [SendMessage]: the outbound request built at the top of [send]. *)
Record SendMessage := {
  sm_id : Z;
  sm_model : string;
  sm_func : string;
  sm_args : option JsValue;
}.

(** What [process.on('message')] receives: [ReplayMessage | ParentMessage].
    Every field is optional on the wire; [None] is JavaScript's
    [undefined]. *)
Record InMsg := {
  m_id : option Z;
  m_result : option JsValue;
  m_error : option string;
  m_type : option string;
  m_value : option JsValue;
}.

(** State of the promise returned by [send].  A fulfilled promise carries
    [replay.result] (possibly [undefined]); a rejected one carries the
    message of the [Error] it was rejected with. *)
Inductive PromiseState : Type :=
| Pending
| Fulfilled (v : option JsValue)
| Rejected (message : string).

(** One invocation of [send]: the closure shared by the [nextTick]
    callback, the [once] listener and the timer callback.  It holds the
    request [msg] and the promise's [resolve]/[reject] pair. *)
Record Frame := {
  f_msg : SendMessage;
  f_promise : PromiseState;
}.

(** A timer created by [setTimeout]; its callback closes over frame
    [t_call].  [t_fired] records that the one-shot timer has run. *)
Record Timer := {
  t_call : nat;
  t_delay : Z;
  t_fired : bool;
}.

(** Observable actions on the collaborators and on the channel. *)
Inductive Effect : Type :=
| LogFatal (text : string)
| LogError (text : string)
| Sent (msg : SendMessage)
| SendOnClosedChannel (msg : SendMessage)
| NotifyClient
| EncodePush (value : option JsValue).

(** The client together with the part of the runtime it touches.
    [listener] is the emitter's table: event name to the frames whose
    [once] listener is registered, in registration order. *)
Record State := {
  listener : gmap string (list nat);
  calls : list Frame;
  timers : list Timer;
  ticks : list nat;
  send_defined : bool;
  connected : bool;
  effects : list Effect;
}.

(** A handler either returns or throws. *)
Inductive Result : Type :=
| Ok (s : State)
| Throw (err : string).

(** ** Functional updates of the state *)

Definition set_listener (tbl : gmap string (list nat)) (s : State) : State :=
  {| listener := tbl; calls := calls s; timers := timers s; ticks := ticks s;
     send_defined := send_defined s; connected := connected s;
     effects := effects s |}.

Definition set_calls (cs : list Frame) (s : State) : State :=
  {| listener := listener s; calls := cs; timers := timers s; ticks := ticks s;
     send_defined := send_defined s; connected := connected s;
     effects := effects s |}.

Definition set_timers (ts : list Timer) (s : State) : State :=
  {| listener := listener s; calls := calls s; timers := ts; ticks := ticks s;
     send_defined := send_defined s; connected := connected s;
     effects := effects s |}.

Definition set_ticks (q : list nat) (s : State) : State :=
  {| listener := listener s; calls := calls s; timers := timers s; ticks := q;
     send_defined := send_defined s; connected := connected s;
     effects := effects s |}.

Definition set_connected (b : bool) (s : State) : State :=
  {| listener := listener s; calls := calls s; timers := timers s;
     ticks := ticks s; send_defined := send_defined s; connected := b;
     effects := effects s |}.

Definition add_effect (e : Effect) (s : State) : State :=
  {| listener := listener s; calls := calls s; timers := timers s;
     ticks := ticks s; send_defined := send_defined s;
     connected := connected s; effects := effects s ++ [e] |}.

(** ** Promises *)

(** [resolve]/[reject]: the first settlement takes effect, later ones are
    ignored (ECMAScript promise resolving functions). *)
Definition settle_frame (o : PromiseState) (f : Frame) : Frame :=
  match f_promise f with
  | Pending => {| f_msg := f_msg f; f_promise := o |}
  | _ => f
  end.

Definition settle (p : nat) (o : PromiseState) (cs : list Frame) : list Frame :=
  match cs !! p with
  | Some f => <[p := settle_frame o f]> cs
  | None => cs
  end.

Definition resolve (p : nat) (v : option JsValue) (s : State) : State :=
  set_calls (settle p (Fulfilled v) (calls s)) s.

Definition reject (p : nat) (message : string) (s : State) : State :=
  set_calls (settle p (Rejected message) (calls s)) s.

Definition promise_of (s : State) (p : nat) : option PromiseState :=
  f_promise <$> calls s !! p.

(** ** The event emitter [this.listener] *)

(** [id.toString(10)] *)
Definition toString10 (id : Z) : string := pretty id.

Fixpoint remove_first (p : nat) (l : list nat) : list nat :=
  match l with
  | [] => []
  | q :: l' => if decide (q = p) then l' else q :: remove_first p l'
  end.

(** [removeListener(type, wrapper)]: drops the wrapper; the key itself is
    deleted when its list becomes empty. *)
Definition removeListener (type : string) (p : nat)
    (tbl : gmap string (list nat)) : gmap string (list nat) :=
  match tbl !! type with
  | None => tbl
  | Some l =>
      match remove_first p l with
      | [] => delete type tbl
      | l' => <[type := l']> tbl
      end
  end.

(** [removeAllListeners(type)] *)
Definition removeAllListeners (type : string) (s : State) : State :=
  set_listener (delete type (listener s)) s.

(** [addListener]: append to the list registered under [type]. *)
Definition addListener (type : string) (p : nat) (s : State) : State :=
  set_listener (<[type := default [] (listener s !! type) ++ [p]]> (listener s)) s.

(** The callback given to [once] in [send]:
    [(replay) => typeof replay.error === 'undefined'
                   ? resolve(replay.result) : reject(new Error(replay.error))] *)
Definition outcome (replay : InMsg) : PromiseState :=
  match m_error replay with
  | None => Fulfilled (m_result replay)
  | Some e => Rejected e
  end.

Definition reply_callback (p : nat) (replay : InMsg) (s : State) : State :=
  match m_error replay with
  | None => resolve p (m_result replay) s
  | Some e => reject p e s
  end.

(** The wrapper installed by [once]: unregister, then run the callback. *)
Definition once_wrapper (type : string) (p : nat) (replay : InMsg)
    (s : State) : State :=
  reply_callback p replay (set_listener (removeListener type p (listener s)) s).

(** [emit(type, msg)]: with no listener the call returns [false], except
    for the event name ["error"], which throws.  Otherwise a copy of the
    listener array is walked in registration order. *)
Definition emit (type : string) (msg : InMsg) (s : State) : Result :=
  match listener s !! type with
  | None =>
      if decide (type = "error") then Throw "ERR_UNHANDLED_ERROR" else Ok s
  | Some l => Ok (foldl (fun st p => once_wrapper type p msg st) s l)
  end.

(** ** IPCClient *)

(** The constructor: a fatal log line when [process.send] is undefined,
    then [ipcInit] and the three facade setters. *)
Definition IPCClient_new (process_send_defined : bool) : State :=
  {| listener := ∅; calls := []; timers := []; ticks := [];
     send_defined := process_send_defined; connected := process_send_defined;
     effects := if process_send_defined then [] else [LogFatal "bit child process"] |}.

(** The handler registered by [ipcInit] on [process.on('message')]. *)
Definition onMessage (msg : InMsg) (s : State) : Result :=
  match m_id msg with
  | Some id => emit (toString10 id) msg s
  | None =>
      if decide (m_type msg = Some "notifyClient") then
        Ok (add_effect NotifyClient s)
      else if decide (m_type msg = Some "pushEncode") then
        Ok (add_effect (EncodePush (m_value msg)) s)
      else Ok s
  end.

(** [setTimeout(cb, timeout)] inside the promise executor. *)
Definition setTimeout (p : nat) (delay : Z) (s : State) : State :=
  set_timers (timers s ++ [{| t_call := p; t_delay := delay; t_fired := false |}]) s.

(** [send(option, timeout = 5000)], called when [new Date().getTime()]
    reads [now].  Returns the index of the new frame (the handle of the
    returned promise) and the new state. *)
Definition send (now : Z) (opt : ClientMessageOption) (timeout : option Z)
    (s : State) : nat * State :=
  let timeout := default 5000%Z timeout in
  let msg := {| sm_id := now; sm_model := model opt;
                sm_func := func opt; sm_args := args opt |} in
  let p := length (calls s) in
  let s1 := set_ticks (ticks s ++ [p]) s in
  let s2 := set_calls (calls s1 ++ [{| f_msg := msg; f_promise := Pending |}]) s1 in
  let s3 := addListener (toString10 (sm_id msg)) p s2 in
  let s4 := if decide (0 < timeout)%Z then setTimeout p timeout s3 else s3 in
  (p, s4).

(** The callback queued with [process.nextTick] by frame [p].  On a closed
    channel [process.send] delivers nothing; the runtime reports that
    outside this class. *)
Definition tick_callback (p : nat) (s : State) : State :=
  match calls s !! p with
  | None => s
  | Some f =>
      if send_defined s then
        if connected s then add_effect (Sent (f_msg f)) s
        else add_effect (SendOnClosedChannel (f_msg f)) s
      else add_effect (LogError "process.send is undefined") s
  end.

(** The callback given to [setTimeout] by frame [p]. *)
Definition timeout_callback (p : nat) (s : State) : State :=
  match calls s !! p with
  | None => s
  | Some f =>
      reject p "IPCTimeout" (removeAllListeners (toString10 (sm_id (f_msg f))) s)
  end.

(** ** The event loop *)

(** What can happen to the client.  [Call now opt timeout]: [send] is
    called while the clock reads [now]; the facade methods built by
    [setReserveation], [setRecorded] and [setRule] all call it without a
    timeout argument ([None]).  [Tick]: the oldest queued [nextTick]
    callback runs.  [Message msg]: the process emits ['message'].
    [FireTimer k]: timer [k] expires; the delay is recorded but expiry is
    left to the environment, so every real schedule is one of the runs.
    [Disconnect]: the channel to the parent closes; the class registers no
    handler for that. *)
Inductive Event : Type :=
| Call (now : Z) (opt : ClientMessageOption) (timeout : option Z)
| Tick
| Message (msg : InMsg)
| FireTimer (k : nat)
| Disconnect.

(** One turn.  [None] means the event cannot happen in that state: the
    [nextTick] queue is drained before any I/O or timer callback runs, a
    timer fires once, and an exception escaping a handler ends the run. *)
Definition step (ev : Event) (s : State) : option State :=
  match ev with
  | Call now opt timeout => Some (snd (send now opt timeout s))
  | Tick =>
      match ticks s with
      | [] => None
      | p :: q => Some (tick_callback p (set_ticks q s))
      end
  | Message msg =>
      match ticks s with
      | [] => match onMessage msg s with Ok s' => Some s' | Throw _ => None end
      | _ :: _ => None
      end
  | FireTimer k =>
      match ticks s, timers s !! k with
      | [], Some t =>
          if t_fired t then None
          else Some (timeout_callback (t_call t)
                       (set_timers (<[k := {| t_call := t_call t; t_delay := t_delay t;
                                             t_fired := true |}]> (timers s)) s))
      | _, _ => None
      end
  | Disconnect =>
      match ticks s with
      | [] => if connected s then Some (set_connected false s) else None
      | _ :: _ => None
      end
  end.

Fixpoint run (evs : list Event) (s : State) : option State :=
  match evs with
  | [] => Some s
  | ev :: evs' =>
      match step ev s with
      | Some s' => run evs' s'
      | None => None
      end
  end.

(** The state after a run, for runs known to succeed. *)
Definition after (evs : list Event) (s : State) : State :=
  default s (run evs s).

Definition reachable (s : State) : Prop :=
  ∃ b evs, run evs (IPCClient_new b) = Some s.

(** ** Measures on the correlation table *)

(** Number of listeners held by the emitter. *)
Definition table_entries (tbl : gmap string (list nat)) : nat :=
  map_fold (fun _ l n => length l + n) 0 tbl.

Definition table_size (s : State) : nat := table_entries (listener s).

Definition is_pending (f : Frame) : bool :=
  match f_promise f with Pending => true | _ => false end.

Definition pending_count (cs : list Frame) : nat :=
  length (filter (fun f => is_pending f = true) cs).

(** Number of calls whose promise has not been settled. *)
Definition in_flight (s : State) : nat := pending_count (calls s).

(** Identifiers of all the calls made so far, in call order. *)
Definition ids (s : State) : list Z :=
  (fun f => sm_id (f_msg f)) <$> calls s.

(** Identifier of call [p]. *)
Definition id_of (s : State) (p : nat) : option Z :=
  (fun f => sm_id (f_msg f)) <$> calls s !! p.

(** No timer has been armed by call [p]. *)
Definition no_timer_for (p : nat) (s : State) : Prop :=
  ∀ k tm, timers s !! k = Some tm → t_call tm ≠ p.

(** [settle_all l o cs]: what walking the listener array [l] does to the
    promises when every callback settles with [o]. *)
Definition settle_all (l : list nat) (o : PromiseState) (cs : list Frame) : list Frame :=
  foldl (fun cs p => settle p o cs) cs l.

(** ** Invariants *)

(** In every state the client can reach: a registered listener belongs to
    a frame that is still pending and is filed under that frame's own
    identifier; no key holds an empty array; every timer belongs to an
    existing frame. *)
Record Inv (s : State) : Prop := {
  inv_registered : ∀ n l p, listener s !! n = Some l → p ∈ l →
    ∃ f, calls s !! p = Some f ∧ n = toString10 (sm_id (f_msg f))
         ∧ f_promise f = Pending;
  inv_nonempty : ∀ n, listener s !! n ≠ Some [];
  inv_timers : ∀ k t, timers s !! k = Some t → t_call t < length (calls s);
}.

(** With pairwise distinct identifiers the table is exact: the record of
    a pending call is the only one under its identifier, and the number of
    records is the number of pending calls. *)
Record Exact (s : State) : Prop := {
  exact_inv : Inv s;
  exact_recorded : ∀ p f, calls s !! p = Some f → f_promise f = Pending →
    listener s !! toString10 (sm_id (f_msg f)) = Some [p];
  exact_size : table_size s = in_flight s;
}.

(** ** Sample data *)

Definition demo_option : ClientMessageOption :=
  {| model := "reserveation"; func := "add"; args := Some (JObj [("option", JObj [])]) |}.

Definition demo_reply (i : Z) (r : option JsValue) (e : option string) : InMsg :=
  {| m_id := Some i; m_result := r; m_error := e; m_type := None; m_value := None |}.

Definition demo_push (tag : string) (v : option JsValue) : InMsg :=
  {| m_id := None; m_result := None; m_error := None; m_type := Some tag; m_value := v |}.

Definition demo_frame (i : Z) (o : PromiseState) : Frame :=
  {| f_msg := {| sm_id := i; sm_model := "reserveation"; sm_func := "add";
                 sm_args := Some (JObj [("option", JObj [])]) |};
     f_promise := o |}.

(** ** Facade methods *)

(** Members of the enums imported from [IPCMessageDefine]. *)
Module ModelName.
Inductive t : Type := reserveation | recorded | rule.
End ModelName.

Module ReserveationFunctions.
Inductive t : Type :=
| getBroadcastStatus | add | update | updateRule | updateAll
| cancel | removeSkip | removeOverlap | edit | clean.
End ReserveationFunctions.

Module RecordedFunctions.
Inductive t : Type := delete | updateVideoFileSize | addVideoFile | deleteVideoFile.
End RecordedFunctions.

Module RuleFuntions.
Inductive t : Type := add | update | enable | disable | delete | deletes.
End RuleFuntions.

(** The string behind each enum member.  [IPCMessageDefine] is not among
    the modelled files, so the values are a parameter of the facade. *)
Record IPCMessageDefine := {
  ModelName_value : ModelName.t → string;
  ReserveationFunctions_value : ReserveationFunctions.t → string;
  RecordedFunctions_value : RecordedFunctions.t → string;
  RuleFuntions_value : RuleFuntions.t → string;
}.

(** A call of one method of [this.reserveation], with its arguments. *)
Inductive IPCReservationManageModel : Type :=
| reserveation_getBroadcastStatus
| reserveation_add (opt : JsValue)
| reserveation_update (reserveId : JsValue)
| reserveation_updateRule (ruleId : JsValue)
| reserveation_updateAll
| reserveation_cancel (reserveId : JsValue)
| reserveation_removeSkip (reserveId : JsValue)
| reserveation_removeOverlap (reserveId : JsValue)
| reserveation_edit (reserveId : JsValue) (opt : JsValue)
| reserveation_clean.

(** A call of one method of [this.recorded]. *)
Inductive IPCRecordedManageModel : Type :=
| recorded_delete (recordedId : JsValue)
| recorded_updateVideoFileSize (videoFileId : JsValue)
| recorded_addVideoFile (opt : JsValue)
| recorded_deleteVideoFile (videoFileId : JsValue).

(** A call of one method of [this.rule]. *)
Inductive IPCRuleManageModel : Type :=
| rule_add (rule : JsValue)
| rule_update (rule : JsValue)
| rule_enable (ruleId : JsValue)
| rule_disable (ruleId : JsValue)
| rule_delete (ruleId : JsValue)
| rule_deletes (ruleIds : JsValue).

(** The option object each method of [setReserveation] hands to [send]. *)
Definition setReserveation (d : IPCMessageDefine) (c : IPCReservationManageModel)
    : ClientMessageOption :=
  let mk f a := {| model := ModelName_value d ModelName.reserveation;
                   func := ReserveationFunctions_value d f; args := a |} in
  match c with
  | reserveation_getBroadcastStatus =>
      mk ReserveationFunctions.getBroadcastStatus None
  | reserveation_add opt =>
      mk ReserveationFunctions.add (Some (JObj [("option", opt)]))
  | reserveation_update reserveId =>
      mk ReserveationFunctions.update (Some (JObj [("reserveId", reserveId)]))
  | reserveation_updateRule ruleId =>
      mk ReserveationFunctions.updateRule (Some (JObj [("ruleId", ruleId)]))
  | reserveation_updateAll =>
      mk ReserveationFunctions.updateAll None
  | reserveation_cancel reserveId =>
      mk ReserveationFunctions.cancel (Some (JObj [("reserveId", reserveId)]))
  | reserveation_removeSkip reserveId =>
      mk ReserveationFunctions.removeSkip (Some (JObj [("reserveId", reserveId)]))
  | reserveation_removeOverlap reserveId =>
      mk ReserveationFunctions.removeOverlap (Some (JObj [("reserveId", reserveId)]))
  | reserveation_edit reserveId opt =>
      mk ReserveationFunctions.edit
         (Some (JObj [("reserveId", reserveId); ("option", opt)]))
  | reserveation_clean =>
      mk ReserveationFunctions.clean None
  end.

(** The option object each method of [setRecorded] hands to [send]. *)
Definition setRecorded (d : IPCMessageDefine) (c : IPCRecordedManageModel)
    : ClientMessageOption :=
  let mk f a := {| model := ModelName_value d ModelName.recorded;
                   func := RecordedFunctions_value d f; args := a |} in
  match c with
  | recorded_delete recordedId =>
      mk RecordedFunctions.delete (Some (JObj [("recordedId", recordedId)]))
  | recorded_updateVideoFileSize videoFileId =>
      mk RecordedFunctions.updateVideoFileSize
         (Some (JObj [("videoFileId", videoFileId)]))
  | recorded_addVideoFile opt =>
      mk RecordedFunctions.addVideoFile (Some (JObj [("option", opt)]))
  | recorded_deleteVideoFile videoFileId =>
      mk RecordedFunctions.deleteVideoFile
         (Some (JObj [("videoFileId", videoFileId)]))
  end.

(** The option object each method of [setRule] hands to [send]. *)
Definition setRule (d : IPCMessageDefine) (c : IPCRuleManageModel)
    : ClientMessageOption :=
  let mk f a := {| model := ModelName_value d ModelName.rule;
                   func := RuleFuntions_value d f; args := a |} in
  match c with
  | rule_add rule => mk RuleFuntions.add (Some (JObj [("rule", rule)]))
  | rule_update rule => mk RuleFuntions.update (Some (JObj [("rule", rule)]))
  | rule_enable ruleId => mk RuleFuntions.enable (Some (JObj [("ruleId", ruleId)]))
  | rule_disable ruleId => mk RuleFuntions.disable (Some (JObj [("ruleId", ruleId)]))
  | rule_delete ruleId => mk RuleFuntions.delete (Some (JObj [("ruleId", ruleId)]))
  | rule_deletes ruleIds => mk RuleFuntions.deletes (Some (JObj [("ruleIds", ruleIds)]))
  end.

(** A call through the public interface [IIPCClient]. *)
Inductive IIPCClient : Type :=
| reserveation (c : IPCReservationManageModel)
| recorded (c : IPCRecordedManageModel)
| rule (c : IPCRuleManageModel).

Definition facade_option (d : IPCMessageDefine) (c : IIPCClient) : ClientMessageOption :=
  match c with
  | reserveation c => setReserveation d c
  | recorded c => setRecorded d c
  | rule c => setRule d c
  end.

(** Every facade method is [this.send({ model, func, args })]: the second
    argument is left out, so the timeout is the default. *)
Definition facade_event (d : IPCMessageDefine) (now : Z) (c : IIPCClient) : Event :=
  Call now (facade_option d c) None.

(** A turn of a client that is only used through its facade. *)
Definition facade_turn (d : IPCMessageDefine) (ev : Event) : Prop :=
  match ev with
  | Call now opt timeout => ∃ c, opt = facade_option d c ∧ timeout = None
  | _ => True
  end.

(** ** The channel *)

(** The request an effect handed to [process.send], if it did. *)
Definition attempted (e : Effect) : option SendMessage :=
  match e with
  | Sent msg | SendOnClosedChannel msg => Some msg
  | _ => None
  end.

(** Everything handed to [process.send] so far, oldest first. *)
Definition outbox (s : State) : list SendMessage := omap attempted (effects s).

(** The requests of all calls, in call order. *)
Definition requests (s : State) : list SendMessage := f_msg <$> calls s.

(** The state of the [nextTick] queue: [d] deferred sends have run, the
    queue holds the calls made since, oldest first, each of them recorded
    and pending, and the first [d] requests are what went to
    [process.send] (nothing at all when it is undefined). *)
Definition Queue (s : State) : Prop :=
  ∃ d, length (calls s) = d + length (ticks s) ∧
       ticks s = seq d (length (ticks s)) ∧
       outbox s = (if send_defined s then take d (requests s) else []) ∧
       ∀ p, p ∈ ticks s →
         ∃ f l, calls s !! p = Some f ∧ f_promise f = Pending ∧
                listener s !! toString10 (sm_id (f_msg f)) = Some l ∧ p ∈ l.

(** Every pending call has a timer of the default delay that has not
    fired yet. *)
Definition Armed (s : State) : Prop :=
  ∀ p f, calls s !! p = Some f → f_promise f = Pending →
    ∃ k t, timers s !! k = Some t ∧ t_call t = p ∧ t_delay t = 5000%Z ∧
           t_fired t = false.

(** The model tag of the group a facade call belongs to. *)
Definition group (c : IIPCClient) : ModelName.t :=
  match c with
  | reserveation _ => ModelName.reserveation
  | recorded _ => ModelName.recorded
  | rule _ => ModelName.rule
  end.

(** Sample enum values. *)
Definition demo_define : IPCMessageDefine :=
  {| ModelName_value := fun m =>
       match m with
       | ModelName.reserveation => "reserveation"
       | ModelName.recorded => "recorded"
       | ModelName.rule => "rule"
       end;
     ReserveationFunctions_value := fun f =>
       match f with
       | ReserveationFunctions.add => "add"
       | ReserveationFunctions.cancel => "cancel"
       | _ => "other"
       end;
     RecordedFunctions_value := fun _ => "recordedFunction";
     RuleFuntions_value := fun f =>
       match f with RuleFuntions.delete => "delete" | _ => "other" end |}.

(** ** Turns and identifiers *)

(** The turn uses up identifier [i]: it delivers a reply carrying [i] or
    fires a timer armed by a call whose identifier is [i]. *)
Definition consumes (s : State) (ev : Event) (i : Z) : Prop :=
  match ev with
  | Message m => m_id m = Some i
  | FireTimer k =>
      ∃ t g, timers s !! k = Some t ∧ calls s !! t_call t = Some g ∧
             sm_id (f_msg g) = i
  | _ => False
  end.

(** The turn is a call that is given identifier [i]. *)
Definition issues (ev : Event) (i : Z) : Prop :=
  match ev with
  | Call now _ _ => now = i
  | _ => False
  end.

(** * Properties *)

(** ** Event names *)

Lemma toString10_inj (i j : Z) : toString10 i = toString10 j → i = j.
Proof. unfold toString10. apply pretty_Z_inj. Qed.

Lemma pretty_N_go_not_error (x : N) (s : string) :
  s ≠ "error" → pretty_N_go x s ≠ "error".
Proof.
  revert s. induction (N.lt_wf_0 x) as [x _ IH]. intros s Hs.
  destruct (decide (x = 0%N)) as [->|Hx].
  - by rewrite pretty_N_go_0.
  - rewrite pretty_N_go_step by lia. apply IH.
    + apply N.div_lt; lia.
    + unfold pretty_N_char. by repeat case_match.
Qed.

(** A decimal numeral is never the reserved event name ["error"]. *)
Lemma toString10_not_error (i : Z) : toString10 i ≠ "error".
Proof.
  unfold toString10, pretty, pretty_Z. destruct i as [|x|x]; [done| |done].
  unfold pretty, pretty_positive, pretty, pretty_N.
  case_decide; [done|]. by apply pretty_N_go_not_error.
Qed.

(** ** Promise settlement *)

Lemma outcome_not_pending (m : InMsg) : outcome m ≠ Pending.
Proof. unfold outcome. by destruct (m_error m). Qed.

Lemma settle_length p o cs : length (settle p o cs) = length cs.
Proof. unfold settle. destruct (cs !! p); [apply length_insert|done]. Qed.

Lemma settle_lookup_ne p q o cs : p ≠ q → settle p o cs !! q = cs !! q.
Proof.
  intros Hne. unfold settle. destruct (cs !! p); [|done].
  by apply list_lookup_insert_ne.
Qed.

Lemma settle_lookup_eq p o cs f :
  cs !! p = Some f → settle p o cs !! p = Some (settle_frame o f).
Proof.
  intros Hf. unfold settle. rewrite Hf.
  apply list_lookup_insert_eq. by eapply lookup_lt_Some.
Qed.

Lemma settle_frame_settled o f : f_promise f ≠ Pending → settle_frame o f = f.
Proof. unfold settle_frame. by destruct (f_promise f). Qed.

Lemma settle_frame_pending o f :
  f_promise f = Pending → settle_frame o f = {| f_msg := f_msg f; f_promise := o |}.
Proof. unfold settle_frame. by intros ->. Qed.

Lemma settle_frame_msg o f : f_msg (settle_frame o f) = f_msg f.
Proof. unfold settle_frame. by destruct (f_promise f). Qed.

(** A settled promise is not changed by a further [resolve]/[reject]. *)
Lemma settle_settled p q o cs f :
  cs !! q = Some f → f_promise f ≠ Pending → settle p o cs !! q = Some f.
Proof.
  intros Hf Hs. destruct (decide (p = q)) as [->|Hne].
  - rewrite (settle_lookup_eq _ _ _ _ Hf). by rewrite settle_frame_settled.
  - by rewrite settle_lookup_ne.
Qed.

Lemma settle_all_length l o cs : length (settle_all l o cs) = length cs.
Proof.
  revert cs. induction l as [|p l IH]; intros cs; [done|].
  unfold settle_all in *. simpl. by rewrite IH, settle_length.
Qed.

Lemma settle_all_notin l o cs q : q ∉ l → settle_all l o cs !! q = cs !! q.
Proof.
  revert cs. induction l as [|p l IH]; intros cs Hq; [done|].
  apply not_elem_of_cons in Hq as [Hne Hq].
  unfold settle_all in *. simpl. rewrite IH by done. by apply settle_lookup_ne.
Qed.

Lemma settle_all_settled l o cs q f :
  cs !! q = Some f → f_promise f ≠ Pending → settle_all l o cs !! q = Some f.
Proof.
  revert cs. induction l as [|p l IH]; intros cs Hf Hs; [done|].
  unfold settle_all in *. simpl. apply IH; [|done]. by apply settle_settled.
Qed.

(** Every frame of the walked array ends up settled with [o]. *)
Lemma settle_all_in l o cs q f :
  o ≠ Pending → q ∈ l → cs !! q = Some f → f_promise f = Pending →
  settle_all l o cs !! q = Some {| f_msg := f_msg f; f_promise := o |}.
Proof.
  intros Ho. revert cs. induction l as [|p l IH]; intros cs Hq Hf Hp.
  - by apply elem_of_nil in Hq.
  - unfold settle_all in *. simpl. destruct (decide (p = q)) as [->|Hne].
    + apply settle_all_settled; [|done].
      rewrite (settle_lookup_eq _ _ _ _ Hf). by rewrite settle_frame_pending.
    + apply elem_of_cons in Hq as [->|Hq]; [done|].
      apply IH; [done| |done]. by rewrite settle_lookup_ne.
Qed.

(** ** The emitter *)

Lemma remove_first_head p l : remove_first p (p :: l) = l.
Proof. simpl. by rewrite decide_True. Qed.

(** Walking the whole array registered under [type] empties the entry. *)
Lemma removeListener_fold type (l : list nat) (tbl : gmap string (list nat)) :
  l ≠ [] → tbl !! type = Some l →
  foldl (fun t p => removeListener type p t) tbl l = delete type tbl.
Proof.
  revert tbl. induction l as [|p l IH]; intros tbl Hne Hl; [done|].
  simpl. unfold removeListener at 2. rewrite Hl, remove_first_head.
  destruct l as [|q l'].
  - done.
  - rewrite IH; [|done|by rewrite lookup_insert_eq].
    by rewrite delete_insert_eq.
Qed.

Lemma once_wrapper_calls type p m s :
  calls (once_wrapper type p m s) = settle p (outcome m) (calls s).
Proof. unfold once_wrapper, reply_callback, outcome. by destruct (m_error m). Qed.

Lemma once_wrapper_listener type p m s :
  listener (once_wrapper type p m s) = removeListener type p (listener s).
Proof. unfold once_wrapper, reply_callback. by destruct (m_error m). Qed.

Lemma once_wrapper_env type p m s :
  timers (once_wrapper type p m s) = timers s ∧
  ticks (once_wrapper type p m s) = ticks s ∧
  send_defined (once_wrapper type p m s) = send_defined s ∧
  connected (once_wrapper type p m s) = connected s ∧
  effects (once_wrapper type p m s) = effects s.
Proof. unfold once_wrapper, reply_callback. by destruct (m_error m). Qed.

Lemma walk_calls type m l s :
  calls (foldl (fun st p => once_wrapper type p m st) s l)
  = settle_all l (outcome m) (calls s).
Proof.
  revert s. induction l as [|p l IH]; intros s; [done|].
  simpl. rewrite IH, once_wrapper_calls. done.
Qed.

Lemma walk_listener type m l s :
  listener (foldl (fun st p => once_wrapper type p m st) s l)
  = foldl (fun t p => removeListener type p t) (listener s) l.
Proof.
  revert s. induction l as [|p l IH]; intros s; [done|].
  simpl. rewrite IH, once_wrapper_listener. done.
Qed.

Lemma walk_env type m l s :
  let s' := foldl (fun st p => once_wrapper type p m st) s l in
  timers s' = timers s ∧ ticks s' = ticks s ∧
  send_defined s' = send_defined s ∧ connected s' = connected s ∧
  effects s' = effects s.
Proof.
  revert s. induction l as [|p l IH]; intros s; [done|].
  simpl. destruct (IH (once_wrapper type p m s)) as (-> & -> & -> & -> & ->).
  apply once_wrapper_env.
Qed.

(** [emit] under a decimal event name never throws. *)
Lemma emit_numeric_ok i m s : ∃ s', emit (toString10 i) m s = Ok s'.
Proof.
  unfold emit. destruct (listener s !! toString10 i); [by eexists|].
  rewrite decide_False by apply toString10_not_error. by eexists.
Qed.

(** ** What each operation does to the state *)

Section Send.
Variables (now : Z) (opt : ClientMessageOption) (timeout : option Z) (s : State).

Let p := length (calls s).
Let s' := snd (send now opt timeout s).
Let msg := {| sm_id := now; sm_model := model opt;
              sm_func := func opt; sm_args := args opt |}.

Lemma send_handle : fst (send now opt timeout s) = length (calls s).
Proof. done. Qed.

Lemma send_calls :
  calls s' = calls s ++ [{| f_msg := msg; f_promise := Pending |}].
Proof. subst s'. unfold send. simpl. by case_decide. Qed.

Lemma send_listener :
  listener s'
  = <[toString10 now := default [] (listener s !! toString10 now) ++ [p]]> (listener s).
Proof. subst s'. unfold send. simpl. by case_decide. Qed.

Lemma send_timers :
  timers s'
  = timers s ++
    (if decide (0 < default 5000 timeout)%Z
     then [{| t_call := p; t_delay := default 5000%Z timeout; t_fired := false |}]
     else []).
Proof.
  subst s'. unfold send. simpl. case_decide; [done|]. simpl.
  by rewrite app_nil_r.
Qed.

Lemma send_ticks : ticks s' = ticks s ++ [p].
Proof. subst s'. unfold send. simpl. by case_decide. Qed.

Lemma send_env :
  send_defined s' = send_defined s ∧ connected s' = connected s ∧
  effects s' = effects s.
Proof. subst s'. unfold send. simpl. by case_decide. Qed.
End Send.

Lemma tick_callback_frame p s :
  calls (tick_callback p s) = calls s ∧
  listener (tick_callback p s) = listener s ∧
  timers (tick_callback p s) = timers s ∧
  ticks (tick_callback p s) = ticks s.
Proof.
  unfold tick_callback. destruct (calls s !! p); [|done].
  by destruct (send_defined s), (connected s).
Qed.

Lemma timeout_callback_calls p s :
  calls (timeout_callback p s) = settle p (Rejected "IPCTimeout") (calls s).
Proof.
  unfold timeout_callback. destruct (calls s !! p) as [f|] eqn:Hf; [done|].
  unfold settle. by rewrite Hf.
Qed.

Lemma timeout_callback_listener p s f :
  calls s !! p = Some f →
  listener (timeout_callback p s)
  = delete (toString10 (sm_id (f_msg f))) (listener s).
Proof. unfold timeout_callback. by intros ->. Qed.

Lemma timeout_callback_env p s :
  timers (timeout_callback p s) = timers s ∧
  ticks (timeout_callback p s) = ticks s ∧
  effects (timeout_callback p s) = effects s.
Proof. unfold timeout_callback. by destruct (calls s !! p). Qed.

(** ** The table invariant *)

Lemma Inv_new b : Inv (IPCClient_new b).
Proof.
  split; simpl.
  - intros n l p Hl. by rewrite lookup_empty in Hl.
  - intros n. by rewrite lookup_empty.
  - intros k t Hk. by rewrite lookup_nil in Hk.
Qed.

Lemma Inv_send now opt timeout s :
  Inv s → Inv (snd (send now opt timeout s)).
Proof.
  intros [Hreg Hne Htm]. split.
  - intros n l p. rewrite send_listener, send_calls.
    destruct (decide (n = toString10 now)) as [->|Hn].
    + rewrite lookup_insert_eq. intros [= <-] Hp.
      apply elem_of_app in Hp as [Hp|Hp].
      * destruct (listener s !! toString10 now) as [l0|] eqn:Hl0;
          simpl in Hp; [|by apply elem_of_nil in Hp].
        destruct (Hreg _ _ _ Hl0 Hp) as (f & Hf & Hname & Hpend).
        exists f. split; [|done]. by apply lookup_app_l_Some.
      * apply list_elem_of_singleton in Hp as ->.
        eexists. split; [by apply list_lookup_middle|done].
    + rewrite lookup_insert_ne by done. intros Hl Hp.
      destruct (Hreg _ _ _ Hl Hp) as (f & Hf & Hname & Hpend).
      exists f. split; [|done]. by apply lookup_app_l_Some.
  - intros n. rewrite send_listener.
    destruct (decide (n = toString10 now)) as [->|Hn].
    + rewrite lookup_insert_eq. intros [= H].
      by destruct (default [] (listener s !! toString10 now)).
    + rewrite lookup_insert_ne by done. apply Hne.
  - intros k t. rewrite send_timers, send_calls, length_app. simpl.
    intros Hk. apply lookup_app_Some in Hk as [Hk|[_ Hk]].
    + apply Htm in Hk. lia.
    + case_decide; [|by rewrite lookup_nil in Hk].
      apply list_lookup_singleton_Some in Hk as [_ <-]. simpl. lia.
Qed.

Lemma emit_none type m s :
  type ≠ "error" → listener s !! type = None → emit type m s = Ok s.
Proof. intros Hne Hl. unfold emit. rewrite Hl. by rewrite decide_False. Qed.

Lemma emit_some type m s l :
  l ≠ [] → listener s !! type = Some l →
  ∃ s', emit type m s = Ok s' ∧
        calls s' = settle_all l (outcome m) (calls s) ∧
        listener s' = delete type (listener s) ∧
        timers s' = timers s ∧ ticks s' = ticks s ∧
        send_defined s' = send_defined s ∧ connected s' = connected s ∧
        effects s' = effects s.
Proof.
  intros Hne Hl. unfold emit. rewrite Hl. eexists. split; [done|].
  rewrite walk_calls, walk_listener, removeListener_fold by done.
  split; [done|]. split; [done|]. apply walk_env.
Qed.

Lemma Inv_emit type m s s' : Inv s → emit type m s = Ok s' → Inv s'.
Proof.
  intros HI Hemit. destruct (listener s !! type) as [l|] eqn:Hl.
  - assert (l ≠ []) as Hne by (intros ->; by eapply inv_nonempty).
    destruct (emit_some type m s l Hne Hl)
      as (s1 & Hs1 & Hc & Hls & Ht & _).
    rewrite Hemit in Hs1. injection Hs1 as <-.
    destruct HI as [Hreg Hnonempty Htm]. split.
    + intros n l' p. rewrite Hls, Hc. intros Hl' Hp.
      apply lookup_delete_Some in Hl' as [Hn Hl'].
      destruct (Hreg _ _ _ Hl' Hp) as (f & Hf & Hname & Hpend).
      exists f. split; [|done]. rewrite settle_all_notin; [done|].
      intros Hin. destruct (Hreg _ _ _ Hl Hin) as (f' & Hf' & Hname' & _).
      congruence.
    + intros n. rewrite Hls. intros Hl'.
      apply lookup_delete_Some in Hl' as [_ Hl']. by eapply Hnonempty.
    + intros k t. rewrite Ht, Hc, settle_all_length. apply Htm.
  - unfold emit in Hemit. rewrite Hl in Hemit. case_decide; [done|].
    by injection Hemit as <-.
Qed.

Lemma Inv_add_effect e s : Inv s → Inv (add_effect e s).
Proof. intros [? ? ?]. by split. Qed.

Lemma Inv_onMessage m s s' : Inv s → onMessage m s = Ok s' → Inv s'.
Proof.
  intros HI. unfold onMessage. destruct (m_id m) as [i|].
  - by apply Inv_emit.
  - repeat case_decide; intros [= <-]; auto using Inv_add_effect.
Qed.

Lemma Inv_tick p q s : Inv s → Inv (tick_callback p (set_ticks q s)).
Proof.
  intros [Hreg Hne Htm].
  destruct (tick_callback_frame p (set_ticks q s)) as (Hc & Hl & Ht & _).
  split; rewrite ?Hc, ?Hl, ?Ht; simpl; done.
Qed.

(** The shape of an enabled timer firing. *)
Lemma step_FireTimer k s s' :
  step (FireTimer k) s = Some s' →
  ∃ t, ticks s = [] ∧ timers s !! k = Some t ∧ t_fired t = false ∧
       calls s' = settle (t_call t) (Rejected "IPCTimeout") (calls s) ∧
       (∀ f, calls s !! t_call t = Some f →
             listener s' = delete (toString10 (sm_id (f_msg f))) (listener s)) ∧
       timers s' = <[k := {| t_call := t_call t; t_delay := t_delay t;
                             t_fired := true |}]> (timers s) ∧
       ticks s' = [] ∧ effects s' = effects s.
Proof.
  simpl. destruct (ticks s) eqn:Hq; [|done].
  destruct (timers s !! k) as [t|] eqn:Ht; [|done].
  destruct (t_fired t) eqn:Hfired; [done|]. intros [= <-].
  exists t. split; [done|]. split; [done|]. split; [done|].
  rewrite timeout_callback_calls. split; [done|]. split.
  - intros f Hf. by rewrite (timeout_callback_listener _ _ f).
  - by destruct (timeout_callback_env (t_call t)
      (set_timers (<[k := {| t_call := t_call t; t_delay := t_delay t;
                             t_fired := true |}]> (timers s)) s)) as (-> & -> & ->).
Qed.

Lemma Inv_FireTimer k s s' : Inv s → step (FireTimer k) s = Some s' → Inv s'.
Proof.
  intros [Hreg Hne Htm] Hstep.
  destruct (step_FireTimer _ _ _ Hstep)
    as (t & _ & Ht & _ & Hc & Hl & Hts & _).
  destruct (lookup_lt_is_Some_2 (calls s) (t_call t)) as [f Hf];
    [by eapply Htm|].
  specialize (Hl f Hf). split.
  - intros n l p. rewrite Hl, Hc. intros Hl' Hp.
    apply lookup_delete_Some in Hl' as [Hn Hl'].
    destruct (Hreg _ _ _ Hl' Hp) as (f' & Hf' & Hname & Hpend).
    exists f'. split; [|done]. rewrite settle_lookup_ne; [done|].
    intros Heq. congruence.
  - intros n. rewrite Hl. intros Hl'.
    apply lookup_delete_Some in Hl' as [_ Hl']. by eapply Hne.
  - intros k' t'. rewrite Hts, Hc, settle_length. intros Hk'.
    destruct (decide (k = k')) as [<-|Hkk].
    + rewrite list_lookup_insert_eq in Hk' by (by eapply lookup_lt_Some).
      injection Hk' as <-. simpl. by eapply Htm.
    + rewrite list_lookup_insert_ne in Hk' by done. by eapply Htm.
Qed.

Lemma Inv_step ev s s' : Inv s → step ev s = Some s' → Inv s'.
Proof.
  intros HI. destruct ev as [now opt timeout| |m|k|].
  - intros [= <-]. by apply Inv_send.
  - simpl. destruct (ticks s) as [|p q]; [done|]. intros [= <-].
    by apply Inv_tick.
  - simpl. destruct (ticks s); [|done].
    destruct (onMessage m s) as [s1|] eqn:Hm; [|done]. intros [= <-].
    by eapply Inv_onMessage.
  - by apply Inv_FireTimer.
  - simpl. destruct (ticks s); [|done]. destruct (connected s); [|done].
    intros [= <-]. destruct HI. by split.
Qed.

Lemma Inv_run evs s s' : Inv s → run evs s = Some s' → Inv s'.
Proof.
  revert s. induction evs as [|ev evs IH]; intros s HI; simpl.
  - by intros [= <-].
  - destruct (step ev s) as [s1|] eqn:Hstep; [|done].
    apply IH. by eapply Inv_step.
Qed.

Lemma reachable_Inv s : reachable s → Inv s.
Proof. intros (b & evs & Hrun). eapply Inv_run; [apply Inv_new|done]. Qed.

Lemma run_app evs1 evs2 s :
  run (evs1 ++ evs2) s = run evs1 s ≫= run evs2.
Proof.
  revert s. induction evs1 as [|e evs1 IH]; intros s; simpl; [done|].
  destruct (step e s); [apply IH|done].
Qed.

Lemma reachable_run evs s s' : reachable s → run evs s = Some s' → reachable s'.
Proof.
  intros (b & evs0 & Hrun) Hrun'. exists b, (evs0 ++ evs).
  rewrite run_app, Hrun. done.
Qed.

(** ** How a single turn can change a promise *)

Lemma promise_of_Some s p o :
  promise_of s p = Some o ↔ ∃ f, calls s !! p = Some f ∧ f_promise f = o.
Proof.
  unfold promise_of. rewrite fmap_Some.
  split; [intros (f & Hf & ->)|intros (f & Hf & <-)]; eauto.
Qed.

Lemma emit_calls type m s s' :
  emit type m s = Ok s' →
  calls s' = settle_all (default [] (listener s !! type)) (outcome m) (calls s).
Proof.
  unfold emit. destruct (listener s !! type) as [l|]; simpl.
  - intros [= <-]. apply walk_calls.
  - case_decide; [done|]. by intros [= <-].
Qed.

Lemma onMessage_calls m s s' :
  onMessage m s = Ok s' →
  calls s' = match m_id m with
             | Some i => settle_all (default [] (listener s !! toString10 i))
                           (outcome m) (calls s)
             | None => calls s
             end.
Proof.
  unfold onMessage. destruct (m_id m) as [i|]; [apply emit_calls|].
  repeat case_decide; intros Heq; by injection Heq as <-.
Qed.

Lemma step_Call now opt timeout s s' :
  step (Call now opt timeout) s = Some s' → s' = snd (send now opt timeout s).
Proof. simpl. congruence. Qed.

(** A settled promise survives every turn unchanged. *)
Lemma step_settled ev s s' p f :
  calls s !! p = Some f → f_promise f ≠ Pending → step ev s = Some s' →
  calls s' !! p = Some f.
Proof.
  intros Hf Hs. destruct ev as [now opt timeout| |m|k|].
  - intros ->%step_Call. rewrite send_calls. by apply lookup_app_l_Some.
  - simpl. destruct (ticks s) as [|q r]; [done|]. intros [= <-].
    by destruct (tick_callback_frame q (set_ticks r s)) as (-> & _).
  - simpl. destruct (ticks s); [|done].
    destruct (onMessage m s) as [s1|] eqn:Hm; [|done]. intros [= <-].
    rewrite (onMessage_calls _ _ _ Hm). destruct (m_id m); [|done].
    by apply settle_all_settled.
  - intros Hstep. destruct (step_FireTimer _ _ _ Hstep) as (t & _ & _ & _ & -> & _).
    by apply settle_settled.
  - simpl. destruct (ticks s); [|done]. destruct (connected s); [|done].
    by intros [= <-].
Qed.

Lemma run_settled evs s s' p f :
  calls s !! p = Some f → f_promise f ≠ Pending → run evs s = Some s' →
  calls s' !! p = Some f.
Proof.
  revert s. induction evs as [|ev evs IH]; intros s Hf Hs; simpl.
  - by intros [= <-].
  - destruct (step ev s) as [s1|] eqn:Hstep; [|done].
    apply IH; [|done]. by eapply step_settled.
Qed.

(** A pending promise is changed by a turn only if that turn delivers a
    reply carrying the frame's identifier or fires a timer armed by the
    frame itself. *)
Lemma step_pending ev s s' p f :
  Inv s → calls s !! p = Some f → f_promise f = Pending → step ev s = Some s' →
  calls s' !! p = Some f
  ∨ (∃ m, ev = Message m ∧ m_id m = Some (sm_id (f_msg f)) ∧
          calls s' !! p = Some {| f_msg := f_msg f; f_promise := outcome m |})
  ∨ (∃ k t, ev = FireTimer k ∧ timers s !! k = Some t ∧ t_fired t = false ∧
            t_call t = p ∧
            calls s' !! p = Some {| f_msg := f_msg f;
                                    f_promise := Rejected "IPCTimeout" |}).
Proof.
  intros HI Hf Hp. destruct ev as [now opt timeout| |m|k|].
  - intros ->%step_Call. left. rewrite send_calls. by apply lookup_app_l_Some.
  - simpl. destruct (ticks s) as [|q r]; [done|]. intros [= <-]. left.
    by destruct (tick_callback_frame q (set_ticks r s)) as (-> & _).
  - simpl. destruct (ticks s); [|done].
    destruct (onMessage m s) as [s1|] eqn:Hm; [|done]. intros [= <-].
    rewrite (onMessage_calls _ _ _ Hm).
    destruct (m_id m) as [i|] eqn:Hid; [|by left].
    destruct (listener s !! toString10 i) as [l|] eqn:Hl; simpl; [|by left].
    destruct (decide (p ∈ l)) as [Hin|Hout].
    + right. left. exists m.
      destruct (inv_registered s HI _ _ _ Hl Hin) as (f' & Hf' & Hname & _).
      assert (f' = f) as -> by congruence.
      apply toString10_inj in Hname as ->.
      split; [done|]. split; [done|].
      apply settle_all_in; auto using outcome_not_pending.
    + left. by rewrite settle_all_notin.
  - intros Hstep.
    destruct (step_FireTimer _ _ _ Hstep) as (t & _ & Ht & Hfired & -> & _).
    destruct (decide (t_call t = p)) as [Heq|Hne].
    + right. right. exists k, t. split; [done|]. split; [done|].
      split; [done|]. split; [done|]. rewrite Heq.
      rewrite (settle_lookup_eq _ _ _ _ Hf). by rewrite settle_frame_pending.
    + left. by rewrite settle_lookup_ne.
  - simpl. destruct (ticks s); [|done]. destruct (connected s); [|done].
    intros [= <-]. by left.
Qed.

(** Frames are never dropped and keep their request. *)
Lemma step_frame ev s s' p f :
  Inv s → calls s !! p = Some f → step ev s = Some s' →
  ∃ f', calls s' !! p = Some f' ∧ f_msg f' = f_msg f.
Proof.
  intros HI Hf Hstep. destruct (f_promise f) eqn:Hp.
  - destruct (step_pending _ _ _ _ _ HI Hf Hp Hstep)
      as [H|[(m & _ & _ & H)|(k & t & _ & _ & _ & _ & H)]]; eauto.
  - exists f. split; [|done]. eapply step_settled; [done| |done]. by rewrite Hp.
  - exists f. split; [|done]. eapply step_settled; [done| |done]. by rewrite Hp.
Qed.

(** ** Enabled turns and what they leave alone *)

Lemma step_Message m s s' :
  ticks s = [] → onMessage m s = Ok s' → step (Message m) s = Some s'.
Proof. intros Hq Hm. simpl. by rewrite Hq, Hm. Qed.

Lemma run_two ev1 ev2 s s1 s2 :
  step ev1 s = Some s1 → step ev2 s1 = Some s2 → run [ev1; ev2] s = Some s2.
Proof. intros H1 H2. simpl. by rewrite H1, H2. Qed.

Lemma step_Tick p q s :
  ticks s = p :: q → step Tick s = Some (tick_callback p (set_ticks q s)).
Proof. intros Hq. simpl. by rewrite Hq. Qed.

Lemma tick_callback_undefined p s f :
  calls s !! p = Some f → send_defined s = false →
  tick_callback p s = add_effect (LogError "process.send is undefined") s.
Proof. intros Hf Hsd. unfold tick_callback. by rewrite Hf, Hsd. Qed.

Lemma step_FireTimer_enabled k s t :
  ticks s = [] → timers s !! k = Some t → t_fired t = false →
  step (FireTimer k) s
  = Some (timeout_callback (t_call t)
            (set_timers (<[k := {| t_call := t_call t; t_delay := t_delay t;
                                   t_fired := true |}]> (timers s)) s)).
Proof. intros Hq Hk Hfired. simpl. by rewrite Hq, Hk, Hfired. Qed.

Lemma emit_effects type m s s' : emit type m s = Ok s' → effects s' = effects s.
Proof.
  unfold emit. destruct (listener s !! type) as [l|].
  - intros [= <-]. apply walk_env.
  - case_decide; [done|]. by intros [= <-].
Qed.

Lemma onMessage_timers m s s' : onMessage m s = Ok s' → timers s' = timers s.
Proof.
  unfold onMessage. destruct (m_id m) as [i|].
  - unfold emit. destruct (listener s !! toString10 i) as [l|].
    + intros [= <-]. apply walk_env.
    + case_decide; [done|]. by intros [= <-].
  - repeat case_decide; intros Heq; by injection Heq as <-.
Qed.

Lemma step_no_timer ev s s' p :
  p < length (calls s) → no_timer_for p s → step ev s = Some s' →
  no_timer_for p s'.
Proof.
  intros Hlt Hno. destruct ev as [now opt timeout| |m|k|].
  - intros ->%step_Call k tm. rewrite send_timers.
    intros [Hk|[_ Hk]]%lookup_app_Some; [by eapply Hno|].
    case_decide; [|by rewrite lookup_nil in Hk].
    apply list_lookup_singleton_Some in Hk as [_ <-]. simpl. lia.
  - simpl. destruct (ticks s) as [|q r]; [done|]. intros [= <-].
    unfold no_timer_for.
    by destruct (tick_callback_frame q (set_ticks r s)) as (_ & _ & -> & _).
  - simpl. destruct (ticks s); [|done].
    destruct (onMessage m s) as [s1|] eqn:Hm; [|done]. intros [= <-].
    unfold no_timer_for. by rewrite (onMessage_timers _ _ _ Hm).
  - intros Hstep k' tm.
    destruct (step_FireTimer _ _ _ Hstep) as (t & _ & Ht & _ & _ & _ & -> & _).
    destruct (decide (k = k')) as [<-|Hkk].
    + rewrite list_lookup_insert_eq by (by eapply lookup_lt_Some).
      intros [= <-]. simpl. by eapply Hno.
    + rewrite list_lookup_insert_ne by done. apply Hno.
  - simpl. destruct (ticks s); [|done]. destruct (connected s); [|done].
    by intros [= <-].
Qed.

(** Along a run, a frame keeps its request and gets no timer it did not
    arm itself. *)
Lemma run_frame evs s s' p f :
  Inv s → calls s !! p = Some f → no_timer_for p s → run evs s = Some s' →
  ∃ f', calls s' !! p = Some f' ∧ f_msg f' = f_msg f ∧ no_timer_for p s'.
Proof.
  revert s f. induction evs as [|ev evs IH]; intros s f HI Hf Hno; simpl.
  - intros [= <-]. eauto.
  - destruct (step ev s) as [s1|] eqn:Hstep; [|done]. intros Hrun.
    destruct (step_frame _ _ _ _ _ HI Hf Hstep) as (f1 & Hf1 & Hmsg).
    destruct (IH s1 f1) as (f' & Hf' & Hmsg' & Hno'); try done.
    + by eapply Inv_step.
    + eapply step_no_timer; [|done|done]. by eapply lookup_lt_Some.
    + exists f'. split; [done|]. split; [congruence|done].
Qed.

(** The identifier of a new call is the clock reading and nothing else. *)
Lemma send_id now opt timeout s :
  id_of (snd (send now opt timeout s)) (fst (send now opt timeout s)) = Some now.
Proof.
  unfold id_of. rewrite send_calls, send_handle.
  by rewrite list_lookup_middle.
Qed.

(** ** Table size when identifiers do not collide *)

Lemma table_entries_insert type l (tbl : gmap string (list nat)) :
  tbl !! type = None →
  table_entries (<[type := l]> tbl) = length l + table_entries tbl.
Proof.
  intros Hnone. unfold table_entries.
  rewrite map_fold_insert_L; [done| |done]. intros. lia.
Qed.

Lemma table_entries_delete type l (tbl : gmap string (list nat)) :
  tbl !! type = Some l →
  table_entries tbl = length l + table_entries (delete type tbl).
Proof.
  intros Hl. unfold table_entries.
  rewrite (map_fold_delete_L _ _ type l tbl); [done| |done]. intros. lia.
Qed.

Lemma pending_count_snoc cs f :
  f_promise f = Pending → pending_count (cs ++ [f]) = S (pending_count cs).
Proof.
  intros Hp. unfold pending_count. rewrite filter_app, length_app.
  rewrite filter_cons_True by (unfold is_pending; by rewrite Hp).
  simpl. lia.
Qed.

Lemma pending_count_insert p cs f f' :
  cs !! p = Some f → is_pending f = true → is_pending f' = false →
  S (pending_count (<[p := f']> cs)) = pending_count cs.
Proof.
  intros Hf Hp Hp'. revert p Hf. unfold pending_count.
  induction cs as [|g cs IH]; intros p Hf; [done|].
  destruct p as [|p]; simpl in *.
  - injection Hf as ->.
    rewrite filter_cons_False by (rewrite Hp'; discriminate).
    by rewrite filter_cons_True.
  - rewrite !filter_cons. case_decide; simpl; rewrite <- (IH p Hf); done.
Qed.

Lemma pending_count_settle p o cs f :
  cs !! p = Some f → f_promise f = Pending → o ≠ Pending →
  S (pending_count (settle p o cs)) = pending_count cs.
Proof.
  intros Hf Hp Ho. unfold settle. rewrite Hf, (settle_frame_pending _ _ Hp).
  apply (pending_count_insert _ _ f); [done| |].
  - unfold is_pending. by rewrite Hp.
  - unfold is_pending. simpl. by destruct o.
Qed.

Lemma settle_settled_id p o cs f :
  cs !! p = Some f → f_promise f ≠ Pending → settle p o cs = cs.
Proof.
  intros Hf Hs. unfold settle. rewrite Hf, settle_frame_settled by done.
  by apply list_insert_id.
Qed.

Lemma ids_settle p o cs :
  (fun f => sm_id (f_msg f)) <$> settle p o cs
  = (fun f => sm_id (f_msg f)) <$> cs.
Proof.
  unfold settle. destruct (cs !! p) as [f|] eqn:Hf; [|done].
  rewrite list_fmap_insert, settle_frame_msg. apply list_insert_id.
  by rewrite list_lookup_fmap, Hf.
Qed.

Lemma ids_settle_all l o cs :
  (fun f => sm_id (f_msg f)) <$> settle_all l o cs
  = (fun f => sm_id (f_msg f)) <$> cs.
Proof.
  revert cs. induction l as [|p l IH]; intros cs; [done|].
  unfold settle_all in *. simpl. by rewrite IH, ids_settle.
Qed.

(** A turn only ever appends to the identifiers issued so far. *)
Lemma step_ids ev s s' :
  step ev s = Some s' →
  ids s' = ids s ++ match ev with Call now _ _ => [now] | _ => [] end.
Proof.
  unfold ids. destruct ev as [now opt timeout| |m|k|].
  - intros ->%step_Call. by rewrite send_calls, fmap_app.
  - simpl. destruct (ticks s) as [|q r]; [done|]. intros [= <-].
    destruct (tick_callback_frame q (set_ticks r s)) as (-> & _).
    by rewrite app_nil_r.
  - simpl. destruct (ticks s); [|done].
    destruct (onMessage m s) as [s1|] eqn:Hm; [|done]. intros [= <-].
    rewrite (onMessage_calls _ _ _ Hm), app_nil_r.
    destruct (m_id m); [apply ids_settle_all|done].
  - intros Hstep.
    destruct (step_FireTimer _ _ _ Hstep) as (t & _ & _ & _ & -> & _).
    by rewrite ids_settle, app_nil_r.
  - simpl. destruct (ticks s); [|done]. destruct (connected s); [|done].
    intros [= <-]. by rewrite app_nil_r.
Qed.

Lemma Exact_new b : Exact (IPCClient_new b).
Proof.
  split; [apply Inv_new| |done].
  intros p f Hf. by destruct p.
Qed.

Lemma Exact_frame s s' :
  Exact s → Inv s' → calls s' = calls s → listener s' = listener s → Exact s'.
Proof.
  intros [_ Hrec Hsize] HI Hc Hl. split; [done| |].
  - rewrite Hc, Hl. apply Hrec.
  - unfold table_size, in_flight in *. by rewrite Hc, Hl.
Qed.

(** Settling a pending call and deleting the entry under its identifier
    keeps the table exact. *)
Lemma Exact_drop s s' p f o :
  Exact s → Inv s' → calls s !! p = Some f → f_promise f = Pending →
  o ≠ Pending → calls s' = settle p o (calls s) →
  listener s' = delete (toString10 (sm_id (f_msg f))) (listener s) →
  Exact s'.
Proof.
  intros [_ Hrec Hsize] HI Hf Hp Ho Hc Hl.
  pose proof (Hrec p f Hf Hp) as Hentry. split; [done| |].
  - intros q g. rewrite Hc, Hl. intros Hg Hgp.
    destruct (decide (p = q)) as [<-|Hne].
    + rewrite (settle_lookup_eq _ _ _ _ Hf), (settle_frame_pending _ _ Hp) in Hg.
      injection Hg as <-. done.
    + rewrite settle_lookup_ne in Hg by done.
      pose proof (Hrec q g Hg Hgp) as Hq.
      rewrite lookup_delete_ne; [done|]. intros Heq. congruence.
  - unfold table_size, in_flight in *. rewrite Hc, Hl.
    pose proof (table_entries_delete _ _ _ Hentry) as Ht.
    pose proof (pending_count_settle p o _ f Hf Hp Ho) as Hn.
    simpl in Ht. lia.
Qed.

Lemma Exact_send now opt timeout s :
  Exact s → NoDup (ids s ++ [now]) → Exact (snd (send now opt timeout s)).
Proof.
  intros [HI Hrec Hsize] Hnd.
  apply NoDup_app in Hnd as (_ & Hfresh & _).
  assert (now ∉ ids s) as Hnow.
  { intros Hin. apply (Hfresh _ Hin). left. }
  assert (listener s !! toString10 now = None) as Hnone.
  { destruct (listener s !! toString10 now) as [l|] eqn:Hl; [|done]. exfalso.
    destruct l as [|q l]; [by eapply inv_nonempty|].
    destruct (inv_registered s HI _ _ q Hl) as (g & Hg & Hname & _); [left|].
    apply toString10_inj in Hname. apply Hnow. unfold ids.
    apply list_elem_of_fmap. exists g. split; [done|].
    by eapply list_elem_of_lookup_2. }
  split; [by apply Inv_send| |].
  - intros q g. rewrite send_calls, send_listener, Hnone. simpl.
    intros [[Hlt Hg]|[-> <-]]%lookup_snoc_Some Hgp.
    + rewrite lookup_insert_ne; [by apply Hrec|].
      intros Heq%toString10_inj. apply Hnow. rewrite Heq. unfold ids.
      apply list_elem_of_fmap. exists g. split; [done|].
      by eapply list_elem_of_lookup_2.
    + simpl. by rewrite lookup_insert_eq.
  - unfold table_size, in_flight in *.
    rewrite send_calls, send_listener, Hnone. simpl.
    rewrite table_entries_insert by done.
    rewrite pending_count_snoc by done. simpl. lia.
Qed.

(** Under distinct identifiers nothing is recorded under the identifier
    of a call that has been settled. *)
Lemma settled_has_no_entry s p f :
  Inv s → NoDup (ids s) → calls s !! p = Some f → f_promise f ≠ Pending →
  listener s !! toString10 (sm_id (f_msg f)) = None.
Proof.
  intros HI Hnd Hf Hp.
  destruct (listener s !! toString10 (sm_id (f_msg f))) as [l|] eqn:Hls;
    [|done]. exfalso.
  destruct l as [|q l]; [by destruct (inv_nonempty s HI _ Hls)|].
  destruct (inv_registered s HI _ _ q Hls)
    as (g & Hg & Hname%toString10_inj & Hgp); [left|].
  assert (q = p) as ->; [|congruence].
  apply (NoDup_lookup (ids s) _ _ (sm_id (f_msg f)) Hnd); unfold ids;
    rewrite list_lookup_fmap.
  - rewrite Hg. simpl. by rewrite Hname.
  - by rewrite Hf.
Qed.

Lemma Exact_step ev s s' :
  Exact s → NoDup (ids s') → step ev s = Some s' → Exact s'.
Proof.
  intros HE Hnd Hstep.
  assert (Inv s') as HI' by (eapply Inv_step; [apply HE|done]).
  pose proof (step_ids _ _ _ Hstep) as Hids.
  destruct ev as [now opt timeout| |m|k|].
  - apply step_Call in Hstep as ->. apply Exact_send; [done|].
    by rewrite <- Hids.
  - simpl in Hstep. destruct (ticks s) as [|q r]; [done|].
    injection Hstep as <-.
    destruct (tick_callback_frame q (set_ticks r s)) as (Hc & Hl & _).
    by apply (Exact_frame s).
  - simpl in Hstep. destruct (ticks s); [|done].
    destruct (onMessage m s) as [s1|] eqn:Hm; [|done]. injection Hstep as ->.
    unfold onMessage in Hm. destruct (m_id m) as [i|].
    + destruct (listener s !! toString10 i) as [l|] eqn:Hl.
      * destruct l as [|q l]; [by destruct (inv_nonempty s (exact_inv s HE) _ Hl)|].
        destruct (inv_registered s (exact_inv s HE) _ _ q Hl)
          as (g & Hg & Hname & Hgp); [left|].
        pose proof (exact_recorded s HE q g Hg Hgp) as Hentry.
        rewrite <- Hname, Hl in Hentry. injection Hentry as ->.
        destruct (emit_some _ m s [q] ltac:(done) Hl)
          as (s2 & Hs2 & Hc & Hls & _).
        assert (s2 = s') as -> by congruence.
        apply (Exact_drop s s' q g (outcome m)); try done.
        -- apply outcome_not_pending.
        -- by rewrite <- Hname.
      * rewrite emit_none in Hm; [|apply toString10_not_error|done].
        by injection Hm as <-.
    + repeat case_decide; injection Hm as <-; by apply (Exact_frame s).
  - destruct (step_FireTimer _ _ _ Hstep) as (t & _ & Ht & _ & Hc & Hl & _).
    destruct (lookup_lt_is_Some_2 (calls s) (t_call t)) as [f Hf];
      [by eapply inv_timers; [apply HE|]|].
    specialize (Hl f Hf).
    assert (f_promise f = Pending ∨ f_promise f ≠ Pending) as [Hp|Hp]
      by (destruct (f_promise f); [by left|by right|by right]).
    + by apply (Exact_drop s s' (t_call t) f (Rejected "IPCTimeout")).
    + rewrite app_nil_r in Hids. rewrite Hids in Hnd.
      apply (Exact_frame s); [done|done| |].
      * rewrite Hc. by apply (settle_settled_id _ _ _ f).
      * rewrite Hl. apply delete_id.
        apply (settled_has_no_entry s (t_call t)); [apply HE|done..].
  - simpl in Hstep. destruct (ticks s); [|done]. destruct (connected s); [|done].
    injection Hstep as <-. by apply (Exact_frame s).
Qed.

Lemma run_ids evs s s' :
  run evs s = Some s' → ∃ more, ids s' = ids s ++ more.
Proof.
  revert s. induction evs as [|ev evs IH]; intros s; simpl.
  - intros [= <-]. exists []. by rewrite app_nil_r.
  - destruct (step ev s) as [s1|] eqn:Hstep; [|done]. intros Hrun.
    destruct (IH _ Hrun) as [more Hmore]. rewrite (step_ids _ _ _ Hstep) in Hmore.
    eexists. by rewrite Hmore, <- app_assoc.
Qed.

Lemma Exact_run evs s s' :
  Exact s → run evs s = Some s' → NoDup (ids s') → Exact s'.
Proof.
  revert s. induction evs as [|ev evs IH]; intros s HE; simpl.
  - by intros [= <-].
  - destruct (step ev s) as [s1|] eqn:Hstep; [|done]. intros Hrun Hnd.
    apply (IH s1); [|done|done]. apply (Exact_step ev s); [done| |done].
    destruct (run_ids _ _ _ Hrun) as [more Hmore]. rewrite Hmore in Hnd.
    by apply NoDup_app in Hnd as (? & _).
Qed.

(** As long as no two calls ever share an identifier, the size of the
    table is the number of calls in flight. *)
Lemma distinct_ids_table_size s :
  reachable s → NoDup (ids s) → table_size s = in_flight s.
Proof.
  intros (b & evs & Hrun) Hnd.
  apply exact_size. eapply Exact_run; [apply Exact_new|done|done].
Qed.

(** What does hold in general: a table entry always belongs to a call in
    flight, so the table is empty whenever nothing is in flight. *)
Lemma quiescent_table_empty s :
  reachable s → in_flight s = 0 → listener s = ∅.
Proof.
  intros HI%reachable_Inv Hzero. apply map_empty. intros n.
  destruct (listener s !! n) as [l|] eqn:Hl; [|done]. exfalso.
  destruct l as [|p l]; [by eapply inv_nonempty|].
  destruct (inv_registered s HI n (p :: l) p Hl) as (f & Hf & _ & Hp);
    [left|].
  unfold in_flight in Hzero. apply nil_length_inv in Hzero.
  eapply (filter_nil_not_elem_of _ _ f Hzero).
  - unfold is_pending. by rewrite Hp.
  - by eapply list_elem_of_lookup_2.
Qed.

(** * Specified properties *)

(** ** C1: at-most-once delivery *)

(** Once settled, a promise keeps its value along every run, and the call
    is recorded nowhere in the table. *)
Lemma settled_stays s1 evs s2 p f1 :
  Inv s1 → calls s1 !! p = Some f1 → f_promise f1 ≠ Pending →
  run evs s1 = Some s2 →
  promise_of s2 p = Some (f_promise f1) ∧
  ∀ n l, listener s2 !! n = Some l → p ∉ l.
Proof.
  intros HI Hf1 Hne Hrun.
  pose proof (run_settled _ _ _ _ _ Hf1 Hne Hrun) as Hf2.
  split; [unfold promise_of; by rewrite Hf2|].
  intros n l Hl Hin.
  destruct (inv_registered s2 (Inv_run _ _ _ HI Hrun) _ _ _ Hl Hin)
    as (f2 & Hf2' & _ & Hp2).
  congruence.
Qed.

(** C1.  Take a call whose promise is pending in a reachable state.
    Reply first: if the call is recorded under its identifier and the
    [nextTick] queue is empty, the delivery of a reply carrying that
    identifier takes place and settles the promise with the reply's
    outcome.  Timer first: if the call's own timer has not fired and the
    queue is empty, its firing takes place and rejects the promise with
    IPCTimeout.  In both cases, whatever turns follow, however many replies
    and timer firings name the same identifier, the promise keeps the value
    it got and the call has no record left in the table for a late reply to
    reach.  Conversely the first turn that settles the promise is one of
    these two, and from then on nothing changes it: the caller is fulfilled
    once and never twice. *)
Theorem at_most_once_delivery s p f :
  reachable s → calls s !! p = Some f → f_promise f = Pending →
  (∀ m l, ticks s = [] → m_id m = Some (sm_id (f_msg f)) →
     listener s !! toString10 (sm_id (f_msg f)) = Some l → p ∈ l →
     ∃ s1, step (Message m) s = Some s1 ∧
           promise_of s1 p = Some (outcome m) ∧
           ∀ evs s2, run evs s1 = Some s2 →
             promise_of s2 p = Some (outcome m) ∧
             ∀ n l', listener s2 !! n = Some l' → p ∉ l')
  ∧ (∀ k t, ticks s = [] → timers s !! k = Some t → t_call t = p →
       t_fired t = false →
       ∃ s1, step (FireTimer k) s = Some s1 ∧
             promise_of s1 p = Some (Rejected "IPCTimeout") ∧
             ∀ evs s2, run evs s1 = Some s2 →
               promise_of s2 p = Some (Rejected "IPCTimeout") ∧
               ∀ n l', listener s2 !! n = Some l' → p ∉ l')
  ∧ (∀ ev s1 evs s2, step ev s = Some s1 → promise_of s1 p ≠ Some Pending →
       run evs s1 = Some s2 →
       promise_of s2 p = promise_of s1 p ∧
       (∀ n l, listener s2 !! n = Some l → p ∉ l) ∧
       ((∃ m, ev = Message m ∧ m_id m = Some (sm_id (f_msg f)) ∧
              promise_of s1 p = Some (outcome m))
        ∨ (∃ k t, ev = FireTimer k ∧ timers s !! k = Some t ∧ t_call t = p ∧
                  promise_of s1 p = Some (Rejected "IPCTimeout")))).
Proof.
  intros Hreach Hf Hp. pose proof (reachable_Inv _ Hreach) as HI.
  split; [|split].
  - intros m l Hq Hid Hl Hin.
    assert (l ≠ []) as Hne by (intros ->; by eapply inv_nonempty).
    destruct (emit_some _ m s l Hne Hl) as (s1 & Hemit & Hc & _).
    assert (step (Message m) s = Some s1) as Hstep.
    { apply step_Message; [done|]. unfold onMessage. by rewrite Hid. }
    assert (calls s1 !! p = Some {| f_msg := f_msg f; f_promise := outcome m |})
      as Hf1.
    { rewrite Hc. apply settle_all_in; auto using outcome_not_pending. }
    exists s1. split; [done|]. split; [unfold promise_of; by rewrite Hf1|].
    intros evs s2 Hrun.
    apply (settled_stays s1 evs s2 p _ (Inv_step _ _ _ HI Hstep) Hf1);
      [apply outcome_not_pending|done].
  - intros k t Hq Hk Hcall Hfired.
    pose proof (step_FireTimer_enabled k s t Hq Hk Hfired) as Hstep.
    eexists. split; [done|].
    match type of Hstep with _ = Some ?x => set (s1 := x) in * end.
    assert (calls s1 !! p = Some {| f_msg := f_msg f;
                                     f_promise := Rejected "IPCTimeout" |})
      as Hf1.
    { subst s1. rewrite timeout_callback_calls. simpl. rewrite Hcall.
      by rewrite (settle_lookup_eq _ _ _ _ Hf), (settle_frame_pending _ _ Hp). }
    split; [unfold promise_of; by rewrite Hf1|].
    intros evs s2 Hrun.
    by apply (settled_stays s1 evs s2 p _ (Inv_step _ _ _ HI Hstep) Hf1).
  - intros ev s1 evs s2 Hstep Hsettled Hrun.
    pose proof (Inv_step _ _ _ HI Hstep) as HI1.
    assert (∀ f1, calls s1 !! p = Some f1 → f_promise f1 ≠ Pending →
              promise_of s2 p = promise_of s1 p ∧
              ∀ n l, listener s2 !! n = Some l → p ∉ l) as Hkeep.
    { intros f1 Hf1 Hne.
      destruct (settled_stays s1 evs s2 p f1 HI1 Hf1 Hne Hrun) as [Heq Hgone].
      split; [|done]. unfold promise_of in *. by rewrite Heq, Hf1. }
    destruct (step_pending _ _ _ _ _ HI Hf Hp Hstep)
      as [H|[(m & -> & Hid & H)|(k & t & -> & Ht & _ & Hcall & H)]].
    + exfalso. apply Hsettled. unfold promise_of. by rewrite H, <- Hp.
    + destruct (Hkeep _ H (outcome_not_pending m)) as [Heq Hgone].
      split; [done|]. split; [done|].
      left. exists m. unfold promise_of. by rewrite H.
    + destruct (Hkeep _ H ltac:(done)) as [Heq Hgone].
      split; [done|]. split; [done|].
      right. exists k, t. unfold promise_of. by rewrite H.
Qed.

(** Call 1001 is pending with its reply listener and its timer.  Either
    the reply wins and the timer comes late, or the timer wins and the
    reply comes late. *)
Lemma at_most_once_delivery_witness :
  let s := after [Call 1001 demo_option None; Tick] (IPCClient_new true) in
  let m := demo_reply 1001 (Some (JStr "abc123")) None in
  (∃ s1, step (Message m) s = Some s1 ∧
         promise_of s1 0 = Some (outcome m) ∧
         ∃ s2, run [FireTimer 0; Message m] s1 = Some s2 ∧
               promise_of s2 0 = Some (outcome m))
  ∧ (∃ s1, step (FireTimer 0) s = Some s1 ∧
           promise_of s1 0 = Some (Rejected "IPCTimeout") ∧
           ∃ s2, run [Message m; Message m] s1 = Some s2 ∧
                 promise_of s2 0 = Some (Rejected "IPCTimeout")).
Proof.
  intros s m.
  destruct (at_most_once_delivery s 0 (demo_frame 1001 Pending))
    as (Hreply & Htimer & _).
  - exists true, [Call 1001%Z demo_option None; Tick]. vm_compute. reflexivity.
  - vm_compute. reflexivity.
  - reflexivity.
  - split.
    + destruct (Hreply m [0]) as (s1 & Hstep & Hp1 & Hlater).
      * vm_compute. reflexivity.
      * reflexivity.
      * vm_compute. reflexivity.
      * left.
      * exists s1. split; [done|]. split; [done|].
        assert (s1 = after [Message m] s) as ->.
        { assert (step (Message m) s = Some (after [Message m] s)) as Hc
            by (vm_compute; reflexivity).
          congruence. }
        exists (after [FireTimer 0; Message m] (after [Message m] s)).
        assert (run [FireTimer 0; Message m] (after [Message m] s)
                = Some (after [FireTimer 0; Message m] (after [Message m] s)))
          as Hrun by (vm_compute; reflexivity).
        split; [done|]. by apply (Hlater _ _ Hrun).
    + destruct (Htimer 0 {| t_call := 0; t_delay := 5000; t_fired := false |})
        as (s1 & Hstep & Hp1 & Hlater).
      * vm_compute. reflexivity.
      * vm_compute. reflexivity.
      * reflexivity.
      * reflexivity.
      * exists s1. split; [done|]. split; [done|].
        assert (s1 = after [FireTimer 0] s) as ->.
        { assert (step (FireTimer 0) s = Some (after [FireTimer 0] s)) as Hc
            by (vm_compute; reflexivity).
          congruence. }
        exists (after [Message m; Message m] (after [FireTimer 0] s)).
        assert (run [Message m; Message m] (after [FireTimer 0] s)
                = Some (after [Message m; Message m] (after [FireTimer 0] s)))
          as Hrun by (vm_compute; reflexivity).
        split; [done|]. by apply (Hlater _ _ Hrun).
Defined.

(** ** C2: [process.send] is undefined *)

(** C2 as stated fails.  With [process.send] undefined, a call made with
    the default timeout is neither rejected with ChannelUnavailable nor
    left without a timer once the deferred send has run. *)
Lemma channel_unavailable_counterexample :
  let s := after [Call 1001 demo_option None; Tick] (IPCClient_new false) in
  run [Call 1001 demo_option None; Tick] (IPCClient_new false) = Some s ∧
  promise_of s 0 ≠ Some (Rejected "ChannelUnavailable") ∧ ¬ no_timer_for 0 s.
Proof.
  intros s. split; [vm_compute; reflexivity|]. split.
  - vm_compute. discriminate.
  - intros Hno.
    apply (Hno 0 {| t_call := 0; t_delay := 5000; t_fired := false |});
      vm_compute; reflexivity.
Qed.

(** C2, amended.  When [process.send] is undefined at the time the deferred
    send of a call runs, nothing is sent and the error line
    "process.send is undefined" is logged; the promise is left pending, and
    the timer is armed exactly as for any other call, that is whenever the
    timeout is positive.  When that timer fires the promise is rejected
    with IPCTimeout. *)
Theorem send_unavailable_logged_then_timeout s now opt timeout :
  send_defined s = false → ticks s = [] →
  let p := length (calls s) in
  let d := default 5000%Z timeout in
  ∃ s2, run [Call now opt timeout; Tick] s = Some s2 ∧
        effects s2 = effects s ++ [LogError "process.send is undefined"] ∧
        promise_of s2 p = Some Pending ∧
        timers s2 = timers s ++
          (if decide (0 < d)%Z
           then [{| t_call := p; t_delay := d; t_fired := false |}] else []) ∧
        ((0 < d)%Z →
         ∃ s3, step (FireTimer (length (timers s))) s2 = Some s3 ∧
               promise_of s3 p = Some (Rejected "IPCTimeout")).
Proof.
  intros Hsend Hq p d.
  pose proof (send_calls now opt timeout s) as Hc.
  pose proof (send_ticks now opt timeout s) as Htk.
  pose proof (send_timers now opt timeout s) as Htm.
  destruct (send_env now opt timeout s) as (Hsd & _ & Heff).
  remember (snd (send now opt timeout s)) as s1 eqn:Hs1.
  fold p in Hc, Htk, Htm. fold d in Htm. rewrite Hq in Htk. simpl in Htk.
  set (fr := {| f_msg := {| sm_id := now; sm_model := model opt;
                  sm_func := func opt; sm_args := args opt |};
                f_promise := Pending |}) in *.
  assert (calls s1 !! p = Some fr) as Hfr.
  { rewrite Hc. by apply list_lookup_middle. }
  set (s2 := add_effect (LogError "process.send is undefined") (set_ticks [] s1)).
  exists s2. split; [|split; [|split; [|split]]].
  - apply (run_two _ _ _ s1); [by rewrite Hs1|].
    rewrite (step_Tick p [] s1 Htk).
    rewrite (tick_callback_undefined p (set_ticks [] s1) fr Hfr); [done|].
    simpl. congruence.
  - simpl. by rewrite Heff.
  - apply promise_of_Some. by exists fr.
  - done.
  - intros Hd. rewrite decide_True in Htm by done.
    set (t := {| t_call := p; t_delay := d; t_fired := false |}) in *.
    assert (timers s2 !! length (timers s) = Some t) as Hk.
    { simpl. rewrite Htm. by apply list_lookup_middle. }
    eexists. split.
    + by apply (step_FireTimer_enabled _ _ t).
    + unfold promise_of. rewrite timeout_callback_calls. simpl.
      by rewrite (settle_lookup_eq _ _ _ _ Hfr).
Qed.

Lemma send_unavailable_logged_then_timeout_witness :
  let s := IPCClient_new false in
  ∃ s2, run [Call 1001 demo_option None; Tick] s = Some s2 ∧
        effects s2 = effects s ++ [LogError "process.send is undefined"] ∧
        promise_of s2 0 = Some Pending ∧
        timers s2 = [{| t_call := 0; t_delay := 5000; t_fired := false |}] ∧
        ((0 < 5000)%Z →
         ∃ s3, step (FireTimer 0) s2 = Some s3 ∧
               promise_of s3 0 = Some (Rejected "IPCTimeout")).
Proof.
  intros s.
  apply (send_unavailable_logged_then_timeout s 1001%Z demo_option None).
  - reflexivity.
  - reflexivity.
Defined.

(** ** C3: reply outcome mapping *)

(** C3.  In a reachable state, let [p] be a call recorded in the table
    under identifier [i].  Its promise is pending, and delivering a reply
    with identifier [i] resolves it with the reply's result payload when
    the reply has no error field (with [undefined] when it has no result
    either) and rejects it with the reply's error string otherwise. *)
Theorem reply_outcome_mapping s m i l p :
  reachable s → ticks s = [] → m_id m = Some i →
  listener s !! toString10 i = Some l → p ∈ l →
  promise_of s p = Some Pending ∧
  ∃ s', step (Message m) s = Some s' ∧
        promise_of s' p = Some match m_error m with
                               | None => Fulfilled (m_result m)
                               | Some e => Rejected e
                               end.
Proof.
  intros HI%reachable_Inv Hq Hid Hl Hp.
  destruct (inv_registered s HI _ _ _ Hl Hp) as (f & Hf & _ & Hpend).
  split; [apply promise_of_Some; eauto|].
  assert (l ≠ []) as Hne by (intros ->; by eapply inv_nonempty).
  destruct (emit_some (toString10 i) m s l Hne Hl) as (s' & Hemit & Hc & _).
  exists s'. split.
  - apply step_Message; [done|]. unfold onMessage. by rewrite Hid.
  - apply promise_of_Some. eexists. split.
    + rewrite Hc. apply settle_all_in; eauto using outcome_not_pending.
    + done.
Qed.

Lemma reply_outcome_mapping_witness :
  let s := after [Call 1001 demo_option None; Tick] (IPCClient_new true) in
  let m := demo_reply 1001 None None in
  promise_of s 0 = Some Pending ∧
  ∃ s', step (Message m) s = Some s' ∧ promise_of s' 0 = Some (Fulfilled None).
Proof.
  intros s m.
  apply (reply_outcome_mapping s m 1001%Z [0] 0).
  - exists true, [Call 1001%Z demo_option None; Tick]. vm_compute. reflexivity.
  - vm_compute. reflexivity.
  - reflexivity.
  - vm_compute. reflexivity.
  - vm_compute. left.
Defined.

(** ** C4: identifiers are clock readings *)

(** C4, failing input.  Two calls made while the clock reads the same
    millisecond are both outstanding and carry the same identifier. *)
Theorem same_millisecond_same_identifier :
  let s := after [Call 1700000000000 demo_option None;
                  Call 1700000000000 demo_option None] (IPCClient_new true) in
  run [Call 1700000000000 demo_option None;
       Call 1700000000000 demo_option None] (IPCClient_new true) = Some s ∧
  promise_of s 0 = Some Pending ∧ promise_of s 1 = Some Pending ∧
  id_of s 0 = Some 1700000000000%Z ∧ id_of s 1 = Some 1700000000000%Z.
Proof. vm_compute. done. Qed.

(** ** C5: loss of the channel *)

(** C5 as stated fails.  A call is pending when the channel goes away: it
    is not rejected with ChannelClosed and its record stays in the
    table. *)
Lemma drain_on_channel_loss_counterexample :
  let s := after [Call 1001 demo_option None; Tick; Disconnect]
             (IPCClient_new true) in
  run [Call 1001 demo_option None; Tick; Disconnect] (IPCClient_new true)
  = Some s ∧
  promise_of s 0 ≠ Some (Rejected "ChannelClosed") ∧ listener s ≠ ∅.
Proof.
  intros s. split; [vm_compute; reflexivity|]. split.
  - vm_compute. discriminate.
  - intros Hempty.
    assert (listener s !! "1001" = Some [0]) as Hl by (vm_compute; reflexivity).
    rewrite Hempty, lookup_empty in Hl. discriminate.
Qed.

(** C5, amended.  The client does not react to the loss of the channel:
    promises, table and timers are what they were, so every pending call
    stays pending and keeps its record.  Afterwards such a call is settled
    only by a reply carrying its identifier, with that reply's outcome, or
    by its own timer, with IPCTimeout. *)
Theorem channel_loss_leaves_calls_pending s s' :
  reachable s → step Disconnect s = Some s' →
  calls s' = calls s ∧ listener s' = listener s ∧ timers s' = timers s ∧
  ∀ p f ev s'', calls s' !! p = Some f → f_promise f = Pending →
    step ev s' = Some s'' → promise_of s'' p ≠ Some Pending →
    (∃ m, ev = Message m ∧ m_id m = Some (sm_id (f_msg f)) ∧
          promise_of s'' p = Some (outcome m))
    ∨ (∃ k t, ev = FireTimer k ∧ timers s' !! k = Some t ∧ t_call t = p ∧
              promise_of s'' p = Some (Rejected "IPCTimeout")).
Proof.
  intros Hreach Hstep.
  assert (Inv s') as HI by (eapply Inv_step; [by apply reachable_Inv|done]).
  simpl in Hstep. destruct (ticks s); [|done].
  destruct (connected s); [|done]. injection Hstep as <-.
  split; [done|]. split; [done|]. split; [done|].
  intros p f ev s'' Hf Hp Hev Hsettled.
  destruct (step_pending _ _ _ _ _ HI Hf Hp Hev)
    as [H|[(m & -> & Hid & H)|(k & t & -> & Ht & _ & Hcall & H)]].
  - exfalso. apply Hsettled. apply promise_of_Some. eauto.
  - left. exists m. split; [done|]. split; [done|]. apply promise_of_Some. eauto.
  - right. exists k, t. split; [done|]. split; [done|]. split; [done|].
    apply promise_of_Some. eauto.
Qed.

Lemma channel_loss_leaves_calls_pending_witness :
  let s := after [Call 1001 demo_option None; Tick] (IPCClient_new true) in
  let s' := after [Disconnect] s in
  calls s' = calls s ∧ listener s' = listener s ∧ timers s' = timers s ∧
  ∀ p f ev s'', calls s' !! p = Some f → f_promise f = Pending →
    step ev s' = Some s'' → promise_of s'' p ≠ Some Pending →
    (∃ m, ev = Message m ∧ m_id m = Some (sm_id (f_msg f)) ∧
          promise_of s'' p = Some (outcome m))
    ∨ (∃ k t, ev = FireTimer k ∧ timers s' !! k = Some t ∧ t_call t = p ∧
              promise_of s'' p = Some (Rejected "IPCTimeout")).
Proof.
  intros s s'.
  apply (channel_loss_leaves_calls_pending s s').
  - exists true, [Call 1001%Z demo_option None; Tick]. vm_compute. reflexivity.
  - vm_compute. reflexivity.
Defined.

(** ** C6: calls without a timeout *)

(** C6.  A call issued with [timeout <= 0] arms no timer.  In every state
    reached afterwards there is still no timer for it, and a turn that
    settles its promise can only be the delivery of a reply carrying its
    identifier, which settles it with that reply's outcome: no timer firing
    ever rejects it, however many turns go by. *)
Theorem unbounded_timeout s now opt t :
  reachable s → (t ≤ 0)%Z →
  let p := fst (send now opt (Some t) s) in
  let s1 := snd (send now opt (Some t) s) in
  timers s1 = timers s ∧ promise_of s1 p = Some Pending ∧
  ∀ evs s2, run evs s1 = Some s2 →
    no_timer_for p s2 ∧
    ∀ ev s3, step ev s2 = Some s3 →
      promise_of s2 p = Some Pending → promise_of s3 p ≠ Some Pending →
      ∃ m, ev = Message m ∧ m_id m = Some now ∧
           promise_of s3 p = Some (outcome m).
Proof.
  intros HI%reachable_Inv Ht p s1.
  assert (timers s1 = timers s) as Htimers.
  { subst s1. rewrite send_timers. simpl. rewrite decide_False by lia.
    apply app_nil_r. }
  assert (calls s1 !! p = Some {| f_msg := {| sm_id := now; sm_model := model opt;
            sm_func := func opt; sm_args := args opt |}; f_promise := Pending |})
    as Hframe.
  { subst s1 p. rewrite send_calls. by apply list_lookup_middle. }
  assert (no_timer_for p s1) as Hno.
  { intros k tm. rewrite Htimers. intros Hk%(inv_timers s HI).
    subst p. rewrite send_handle. lia. }
  split; [done|]. split; [apply promise_of_Some; eauto|].
  intros evs s2 Hrun.
  destruct (run_frame evs s1 s2 p _ (Inv_send _ _ _ _ HI) Hframe Hno Hrun)
    as (f2 & Hf2 & Hmsg & Hno2).
  split; [done|]. intros ev s3 Hstep Hpend Hsettled.
  apply promise_of_Some in Hpend as (f2' & Hf2' & Hpend).
  assert (f2' = f2) as -> by congruence.
  assert (Inv s2) as HI2 by (eapply Inv_run; [|done]; by apply Inv_send).
  destruct (step_pending _ _ _ _ _ HI2 Hf2 Hpend Hstep)
    as [H|[(m & -> & Hid & H)|(k & tm & _ & Hk & _ & Hcall & _)]].
  - exfalso. apply Hsettled. apply promise_of_Some. eauto.
  - exists m. split; [done|]. rewrite Hmsg in Hid. split; [done|].
    apply promise_of_Some. eauto.
  - exfalso. by eapply Hno2.
Qed.

(** A call with [timeout = 0]; the timer of an earlier call fires and a
    reply for the unbounded call comes in afterwards. *)
Lemma unbounded_timeout_witness :
  let s := after [Call 1001 demo_option None; Tick] (IPCClient_new true) in
  let s1 := snd (send 1002 demo_option (Some 0%Z) s) in
  timers s1 = timers s ∧ promise_of s1 1 = Some Pending ∧
  ∀ evs s2, run evs s1 = Some s2 →
    no_timer_for 1 s2 ∧
    ∀ ev s3, step ev s2 = Some s3 →
      promise_of s2 1 = Some Pending → promise_of s3 1 ≠ Some Pending →
      ∃ m, ev = Message m ∧ m_id m = Some 1002%Z ∧
           promise_of s3 1 = Some (outcome m).
Proof.
  intros s s1.
  apply (unbounded_timeout s 1002%Z demo_option 0%Z).
  - exists true, [Call 1001%Z demo_option None; Tick]. vm_compute. reflexivity.
  - lia.
Defined.

(** ** C7: classification of inbound messages *)

(** C7.  A message with an [id] field is handed to the emitter under the
    decimal name of that identifier, the handler returns, and no
    collaborator is called, whatever else the message carries.  A message
    without [id] leaves table, promises and timers alone: tag
    ["notifyClient"] calls [socketIO.notifyClient()], tag ["pushEncode"]
    calls [encodeManage.push(value)], and any other tag (or none) is
    ignored, the state being returned as it was. *)
Theorem dispatcher_classification m s :
  (∀ i, m_id m = Some i →
        onMessage m s = emit (toString10 i) m s ∧
        ∃ s', onMessage m s = Ok s' ∧ effects s' = effects s)
  ∧ (m_id m = None →
       (m_type m = Some "notifyClient" →
          onMessage m s = Ok (add_effect NotifyClient s))
     ∧ (m_type m = Some "pushEncode" →
          onMessage m s = Ok (add_effect (EncodePush (m_value m)) s))
     ∧ (m_type m ≠ Some "notifyClient" → m_type m ≠ Some "pushEncode" →
          onMessage m s = Ok s)).
Proof.
  split.
  - intros i Hid. unfold onMessage. rewrite Hid. split; [done|].
    destruct (emit_numeric_ok i m s) as [s' Hs']. exists s'.
    split; [done|]. by eapply emit_effects.
  - intros Hid. unfold onMessage. rewrite Hid. split; [|split].
    + intros Ht. by rewrite decide_True.
    + intros Ht. rewrite decide_False by (rewrite Ht; discriminate).
      by rewrite decide_True.
    + intros Hn He. by rewrite !decide_False.
Qed.

(** A push with a tag this client does not know. *)
Lemma dispatcher_classification_witness :
  let s := after [Call 1001 demo_option None; Tick] (IPCClient_new true) in
  let m := demo_push "somethingNew" (Some (JNum 7)) in
  onMessage m s = Ok s.
Proof.
  intros s m.
  destruct (dispatcher_classification m s) as [_ Hpush].
  destruct (Hpush eq_refl) as (_ & _ & Hother).
  apply Hother; vm_compute; discriminate.
Defined.

(** ** C8: a reply nobody waits for *)

(** C8.  When no listener is recorded under the identifier of an incoming
    reply, the handler returns normally and the state is exactly what it
    was: every pending call keeps its record, its promise and its timer. *)
Theorem unmatched_reply_harmless s m i :
  m_id m = Some i → listener s !! toString10 i = None →
  onMessage m s = Ok s ∧ (ticks s = [] → step (Message m) s = Some s).
Proof.
  intros Hid Hl.
  assert (onMessage m s = Ok s) as Hm.
  { unfold onMessage. rewrite Hid.
    apply emit_none; [apply toString10_not_error|done]. }
  split; [done|]. intros Hq. by apply step_Message.
Qed.

(** Call 1001 is pending; a reply for 999 arrives. *)
Lemma unmatched_reply_harmless_witness :
  let s := after [Call 1001 demo_option None; Tick] (IPCClient_new true) in
  let m := demo_reply 999 (Some JNull) None in
  onMessage m s = Ok s ∧ (ticks s = [] → step (Message m) s = Some s).
Proof.
  intros s m. apply (unmatched_reply_harmless s m 999%Z).
  - reflexivity.
  - vm_compute. reflexivity.
Defined.

(** ** C9: table size against calls in flight *)

(** C9, failing input.  Two calls share an identifier; the timer of the
    first fires.  The table is then empty while the second call is still
    in flight. *)
Theorem table_smaller_than_in_flight :
  let s := after [Call 1001 demo_option None; Call 1001 demo_option None;
                  Tick; Tick; FireTimer 0] (IPCClient_new true) in
  run [Call 1001 demo_option None; Call 1001 demo_option None;
       Tick; Tick; FireTimer 0] (IPCClient_new true) = Some s ∧
  table_size s = 0 ∧ in_flight s = 1 ∧ promise_of s 1 = Some Pending.
Proof. vm_compute. done. Qed.

(** ** C10: fan-out under an identifier collision *)

(** C10.  In a reachable state, let [l] be the calls recorded under
    identifier [i] (two or more when identifiers collided).  One reply with
    identifier [i] settles every one of them with the same outcome and
    empties the entry.  One firing of a timer armed by a call with
    identifier [i] removes the whole entry as well: the records of all the
    other calls in [l] are gone although their promises are still
    pending. *)
Theorem collision_fan_out s i l :
  reachable s → ticks s = [] → listener s !! toString10 i = Some l →
  (∀ m, m_id m = Some i →
        ∃ s', step (Message m) s = Some s' ∧
              (∀ p, p ∈ l → promise_of s' p = Some (outcome m)) ∧
              listener s' !! toString10 i = None)
  ∧ (∀ k t f, timers s !! k = Some t → t_fired t = false →
              calls s !! t_call t = Some f → sm_id (f_msg f) = i →
        ∃ s', step (FireTimer k) s = Some s' ∧
              listener s' !! toString10 i = None ∧
              (∀ p, p ∈ l → p ≠ t_call t → promise_of s' p = Some Pending)).
Proof.
  intros HI%reachable_Inv Hq Hl.
  assert (l ≠ []) as Hne by (intros ->; by eapply inv_nonempty).
  split.
  - intros m Hid.
    destruct (emit_some (toString10 i) m s l Hne Hl)
      as (s' & Hemit & Hc & Hls & _).
    exists s'. split; [|split].
    + apply step_Message; [done|]. unfold onMessage. by rewrite Hid.
    + intros p Hp.
      destruct (inv_registered s HI _ _ _ Hl Hp) as (f & Hf & _ & Hpend).
      apply promise_of_Some.
      exists {| f_msg := f_msg f; f_promise := outcome m |}. split; [|done].
      rewrite Hc. apply settle_all_in; eauto using outcome_not_pending.
    + rewrite Hls. apply lookup_delete_eq.
  - intros k t f Ht Hfired Hf Hi.
    destruct (step (FireTimer k) s) as [s'|] eqn:Hstep.
    + exists s'. split; [done|].
      destruct (step_FireTimer _ _ _ Hstep)
        as (t' & _ & Ht' & _ & Hc & Hls & _).
      assert (t' = t) as -> by congruence.
      rewrite (Hls f Hf), Hi. split; [apply lookup_delete_eq|].
      intros p Hp Hne'.
      destruct (inv_registered s HI _ _ _ Hl Hp) as (f' & Hf' & _ & Hpend).
      apply promise_of_Some. exists f'. split; [|done].
      rewrite Hc. by rewrite settle_lookup_ne.
    + simpl in Hstep. by rewrite Hq, Ht, Hfired in Hstep.
Qed.

Lemma collision_fan_out_witness :
  let s := after [Call 1001 demo_option None; Call 1001 demo_option None;
                  Tick; Tick] (IPCClient_new true) in
  (∀ m, m_id m = Some 1001%Z →
        ∃ s', step (Message m) s = Some s' ∧
              (∀ p, p ∈ [0; 1] → promise_of s' p = Some (outcome m)) ∧
              listener s' !! toString10 1001 = None)
  ∧ (∀ k t f, timers s !! k = Some t → t_fired t = false →
              calls s !! t_call t = Some f → sm_id (f_msg f) = 1001%Z →
        ∃ s', step (FireTimer k) s = Some s' ∧
              listener s' !! toString10 1001 = None ∧
              (∀ p, p ∈ [0; 1] → p ≠ t_call t → promise_of s' p = Some Pending)).
Proof.
  intros s.
  apply (collision_fan_out s 1001%Z [0; 1]).
  - exists true, [Call 1001%Z demo_option None; Call 1001%Z demo_option None;
                  Tick; Tick].
    vm_compute. reflexivity.
  - vm_compute. reflexivity.
  - vm_compute. reflexivity.
Defined.

(** * Further properties of the client *)

(** ** Reasoning over all reachable states *)

Lemma reachable_invariant (P : State → Prop) :
  (∀ b, P (IPCClient_new b)) →
  (∀ ev s s', reachable s → P s → step ev s = Some s' → P s') →
  ∀ s, reachable s → P s.
Proof.
  intros Hnew Hstep s (b & evs & Hrun). revert s Hrun.
  induction evs as [|ev evs IH] using rev_ind; intros s Hrun.
  - injection Hrun as <-. apply Hnew.
  - rewrite run_app in Hrun.
    destruct (run evs (IPCClient_new b)) as [s0|] eqn:Hrun0; [|done].
    simpl in Hrun. destruct (step ev s0) as [s1|] eqn:Hev; [|done].
    injection Hrun as <-. eapply Hstep; [by exists b, evs|by apply IH|done].
Qed.

(** The five ways a turn can be taken. *)
Lemma step_inversion ev s s' :
  step ev s = Some s' →
  (∃ now opt timeout,
     ev = Call now opt timeout ∧ s' = snd (send now opt timeout s))
  ∨ (∃ p q, ev = Tick ∧ ticks s = p :: q ∧
            s' = tick_callback p (set_ticks q s))
  ∨ (∃ m, ev = Message m ∧ ticks s = [] ∧ onMessage m s = Ok s')
  ∨ (∃ k t, ev = FireTimer k ∧ ticks s = [] ∧ timers s !! k = Some t ∧
            t_fired t = false ∧
            calls s' = settle (t_call t) (Rejected "IPCTimeout") (calls s) ∧
            (∀ f, calls s !! t_call t = Some f →
               listener s' = delete (toString10 (sm_id (f_msg f))) (listener s)) ∧
            timers s' = <[k := {| t_call := t_call t; t_delay := t_delay t;
                                  t_fired := true |}]> (timers s) ∧
            ticks s' = [] ∧ effects s' = effects s)
  ∨ (ev = Disconnect ∧ ticks s = [] ∧ connected s = true ∧
     s' = set_connected false s).
Proof.
  intros Hstep. destruct ev as [now opt timeout| |m|k|].
  - left. apply step_Call in Hstep. eauto.
  - right. left. simpl in Hstep. destruct (ticks s) as [|p q]; [done|].
    injection Hstep as <-. eauto.
  - right. right. left. simpl in Hstep. destruct (ticks s); [|done].
    destruct (onMessage m s) as [s1|] eqn:Hm; [|done].
    injection Hstep as ->. eauto.
  - right. right. right. left.
    destruct (step_FireTimer _ _ _ Hstep) as (t & ? & ? & ? & ? & ? & ? & ? & ?).
    exists k, t. eauto 10.
  - right. right. right. right. simpl in Hstep.
    destruct (ticks s); [|done]. destruct (connected s); [|done].
    by injection Hstep as <-.
Qed.

(** What the delivery of a reply does to a state that satisfies the table
    invariant. *)
Lemma onMessage_reply m i s s' :
  Inv s → m_id m = Some i → onMessage m s = Ok s' →
  calls s' = settle_all (default [] (listener s !! toString10 i)) (outcome m)
               (calls s) ∧
  listener s' = delete (toString10 i) (listener s) ∧
  timers s' = timers s ∧ ticks s' = ticks s ∧ effects s' = effects s ∧
  send_defined s' = send_defined s ∧ connected s' = connected s.
Proof.
  intros HI Hid Hm. unfold onMessage in Hm. rewrite Hid in Hm.
  destruct (listener s !! toString10 i) as [l|] eqn:Hl.
  - assert (l ≠ []) as Hne by (intros ->; by eapply inv_nonempty).
    destruct (emit_some _ m s l Hne Hl)
      as (s1 & Hs1 & Hc & Hls & Ht & Hq & Hsd & Hcn & He).
    assert (s1 = s') as -> by congruence. done.
  - rewrite emit_none in Hm; [|apply toString10_not_error|done].
    injection Hm as <-. by rewrite delete_id.
Qed.

(** What a push message does. *)
Lemma onMessage_push m s s' :
  m_id m = None → onMessage m s = Ok s' →
  calls s' = calls s ∧ listener s' = listener s ∧ timers s' = timers s ∧
  ticks s' = ticks s ∧ send_defined s' = send_defined s ∧
  connected s' = connected s ∧
  ∃ e, effects s' = effects s ++ e ∧ omap attempted e = [].
Proof.
  intros Hid. unfold onMessage. rewrite Hid.
  repeat case_decide; intros Hm; injection Hm as <-; repeat split; try done.
  - by exists [NotifyClient].
  - by exists [EncodePush (m_value m)].
  - exists []. by rewrite app_nil_r.
Qed.

(** ** Records of the table *)

(** A frame is recorded at most once, and only frames that exist. *)
Lemma recorded_once s :
  reachable s → ∀ n l, listener s !! n = Some l → NoDup l.
Proof.
  revert s.
  apply (reachable_invariant (fun s => ∀ n l, listener s !! n = Some l → NoDup l)).
  - intros b n l Hl. simpl in Hl. by rewrite lookup_empty in Hl.
  - intros ev s s' HI%reachable_Inv IH Hstep n l.
    destruct (step_inversion _ _ _ Hstep) as
      [(now & opt & timeout & -> & ->)|[(p & q & -> & Hq & ->)|
      [(m & -> & Hq & Hm)|[(k & t & -> & Hq & Ht & _ & _ & Hl & _)|
      (-> & _ & _ & ->)]]]].
    + rewrite send_listener.
      destruct (decide (n = toString10 now)) as [->|Hn].
      * rewrite lookup_insert_eq. intros [= <-]. apply NoDup_app.
        split; [|split; [|apply NoDup_singleton]].
        -- destruct (listener s !! toString10 now) eqn:Hl0; simpl;
             [by eapply IH|apply NoDup_nil_2].
        -- intros x Hx ->%list_elem_of_singleton.
           destruct (listener s !! toString10 now) as [l0|] eqn:Hl0;
             simpl in Hx; [|by apply elem_of_nil in Hx].
           destruct (inv_registered s HI _ _ _ Hl0 Hx) as (f & Hf%lookup_lt_Some & _).
           lia.
      * rewrite lookup_insert_ne by done. apply IH.
    + destruct (tick_callback_frame p (set_ticks q s)) as (_ & -> & _). apply IH.
    + destruct (m_id m) as [i|] eqn:Hid.
      * destruct (onMessage_reply _ _ _ _ HI Hid Hm) as (_ & -> & _).
        intros [_ Hl]%lookup_delete_Some. by eapply IH.
      * destruct (onMessage_push _ _ _ Hid Hm) as (_ & -> & _). apply IH.
    + destruct (lookup_lt_is_Some_2 (calls s) (t_call t)) as [f Hf];
        [by eapply inv_timers|].
      rewrite (Hl f Hf). intros [_ Hl']%lookup_delete_Some. by eapply IH.
    + apply IH.
Qed.

(** X1.  No stale entries: in every reachable state an entry of the table
    is a non-empty array without repetition, and each frame in it is a call
    whose promise is still pending and whose identifier, rendered in
    decimal, is the key of the entry. *)
Theorem no_stale_entries s n l :
  reachable s → listener s !! n = Some l →
  l ≠ [] ∧ NoDup l ∧
  ∀ p, p ∈ l →
    promise_of s p = Some Pending ∧ toString10 <$> id_of s p = Some n.
Proof.
  intros Hreach Hl. pose proof (reachable_Inv _ Hreach) as HI.
  split; [intros ->; by eapply inv_nonempty|].
  split; [by eapply recorded_once|].
  intros p Hp.
  destruct (inv_registered s HI _ _ _ Hl Hp) as (f & Hf & -> & Hpend).
  split; [apply promise_of_Some; eauto|].
  unfold id_of. by rewrite Hf.
Qed.

(** Two calls collided on identifier 1001 and wait for their reply. *)
Lemma no_stale_entries_witness :
  let s := after [Call 1001 demo_option None; Call 1001 demo_option (Some 0%Z);
                  Tick; Tick] (IPCClient_new true) in
  [0; 1] ≠ [] ∧ NoDup [0; 1] ∧
  ∀ p, p ∈ [0; 1] →
    promise_of s p = Some Pending ∧ toString10 <$> id_of s p = Some "1001".
Proof.
  intros s. apply (no_stale_entries s "1001" [0; 1]).
  - exists true, [Call 1001%Z demo_option None; Call 1001%Z demo_option (Some 0%Z);
                  Tick; Tick].
    vm_compute. reflexivity.
  - vm_compute. reflexivity.
Defined.

(** X2.  Quiescence: whenever no call is in flight the table is empty. *)
Theorem table_empty_when_quiescent s :
  reachable s → in_flight s = 0 → listener s = ∅ ∧ table_size s = 0.
Proof.
  intros Hreach Hzero.
  pose proof (quiescent_table_empty s Hreach Hzero) as Hempty.
  split; [done|]. unfold table_size. by rewrite Hempty.
Qed.

(** One call answered, one call timed out, a late reply dropped. *)
Lemma table_empty_when_quiescent_witness :
  let s := after [Call 1001 demo_option None; Tick;
                  Call 1002 demo_option None; Tick;
                  Message (demo_reply 1002 (Some (JStr "abc123")) None);
                  FireTimer 0; FireTimer 1;
                  Message (demo_reply 1001 None None)] (IPCClient_new true) in
  listener s = ∅ ∧ table_size s = 0.
Proof.
  intros s. apply (table_empty_when_quiescent s).
  - exists true, [Call 1001%Z demo_option None; Tick;
                  Call 1002%Z demo_option None; Tick;
                  Message (demo_reply 1002 (Some (JStr "abc123")) None);
                  FireTimer 0; FireTimer 1;
                  Message (demo_reply 1001 None None)].
    vm_compute. reflexivity.
  - vm_compute. reflexivity.
Defined.

(** X3.  Without collisions the table is exact: if the identifiers of all
    calls made so far are pairwise distinct, the number of records equals
    the number of calls in flight, and every pending call is the one and
    only record under its identifier. *)
Theorem table_exact_without_collisions s :
  reachable s → NoDup (ids s) →
  table_size s = in_flight s ∧
  ∀ p, promise_of s p = Some Pending →
    ∃ i, id_of s p = Some i ∧ listener s !! toString10 i = Some [p].
Proof.
  intros (b & evs & Hrun) Hnd.
  assert (Exact s) as HE by (eapply Exact_run; [apply Exact_new|done|done]).
  split; [apply HE|].
  intros p (f & Hf & Hp)%promise_of_Some. exists (sm_id (f_msg f)).
  split; [unfold id_of; by rewrite Hf|]. by apply (exact_recorded s HE).
Qed.

Lemma table_exact_without_collisions_witness :
  let s := after [Call 1001 demo_option None; Tick;
                  Call 1002 demo_option (Some 0%Z); Tick;
                  Call 1003 demo_option None; Tick;
                  Message (demo_reply 1003 None (Some "failed"))]
             (IPCClient_new true) in
  table_size s = in_flight s ∧
  ∀ p, promise_of s p = Some Pending →
    ∃ i, id_of s p = Some i ∧ listener s !! toString10 i = Some [p].
Proof.
  intros s. apply (table_exact_without_collisions s).
  - exists true, [Call 1001%Z demo_option None; Tick;
                  Call 1002%Z demo_option (Some 0%Z); Tick;
                  Call 1003%Z demo_option None; Tick;
                  Message (demo_reply 1003 None (Some "failed"))].
    vm_compute. reflexivity.
  - apply (bool_decide_unpack (NoDup (ids s))). vm_compute. exact I.
Defined.

(** ** Identifiers keep calls apart *)

(** X4.  Isolation: a turn that neither uses up identifier [i] nor issues
    it leaves every call with identifier [i] exactly as it was, promise
    included, together with the table entry under [i].  In particular a
    reply or a timeout for one identifier never settles or unregisters a
    call made under another. *)
Theorem other_identifiers_untouched s ev s' p f :
  reachable s → calls s !! p = Some f → step ev s = Some s' →
  ¬ consumes s ev (sm_id (f_msg f)) → ¬ issues ev (sm_id (f_msg f)) →
  calls s' !! p = Some f ∧
  listener s' !! toString10 (sm_id (f_msg f))
  = listener s !! toString10 (sm_id (f_msg f)).
Proof.
  intros HI%reachable_Inv Hf Hstep Hcons Hiss.
  destruct (step_inversion _ _ _ Hstep) as
    [(now & opt & timeout & -> & ->)|[(q & r & -> & Hq & ->)|
    [(m & -> & Hq & Hm)|[(k & t & -> & Hq & Ht & _ & Hc & Hl & _)|
    (-> & _ & _ & ->)]]]].
  - rewrite send_calls, send_listener. split; [by apply lookup_app_l_Some|].
    rewrite lookup_insert_ne; [done|]. intros Heq%toString10_inj. by apply Hiss.
  - by destruct (tick_callback_frame q (set_ticks r s)) as (-> & -> & _).
  - destruct (m_id m) as [j|] eqn:Hid.
    + destruct (onMessage_reply _ _ _ _ HI Hid Hm) as (-> & -> & _).
      assert (toString10 j ≠ toString10 (sm_id (f_msg f))) as Hne.
      { intros Heq%toString10_inj. apply Hcons. simpl. by rewrite Hid, Heq. }
      split; [|by rewrite lookup_delete_ne].
      rewrite settle_all_notin; [done|]. intros Hin.
      destruct (listener s !! toString10 j) as [l|] eqn:Hl; simpl in Hin;
        [|by apply elem_of_nil in Hin].
      destruct (inv_registered s HI _ _ _ Hl Hin) as (f' & Hf' & Hname & _).
      congruence.
    + by destruct (onMessage_push _ _ _ Hid Hm) as (-> & -> & _).
  - destruct (lookup_lt_is_Some_2 (calls s) (t_call t)) as [g Hg];
      [by eapply inv_timers|].
    assert (sm_id (f_msg g) ≠ sm_id (f_msg f)) as Hne.
    { intros Heq. apply Hcons. simpl. eauto. }
    rewrite Hc, (Hl g Hg). split.
    + rewrite settle_lookup_ne; [done|]. intros Heq. congruence.
    + rewrite lookup_delete_ne; [done|]. by intros Heq%toString10_inj.
  - done.
Qed.

(** Calls 1001 and 1002 are pending; the reply for 1002 arrives first. *)
Lemma other_identifiers_untouched_witness :
  let s := after [Call 1001 demo_option None; Tick;
                  Call 1002 demo_option None; Tick] (IPCClient_new true) in
  let ev := Message (demo_reply 1002 (Some (JStr "abc123")) None) in
  calls (after [ev] s) !! 0 = Some (demo_frame 1001 Pending) ∧
  listener (after [ev] s) !! toString10 1001 = listener s !! toString10 1001.
Proof.
  intros s ev.
  apply (other_identifiers_untouched s ev (after [ev] s) 0 (demo_frame 1001 Pending)).
  - exists true, [Call 1001%Z demo_option None; Tick;
                  Call 1002%Z demo_option None; Tick].
    vm_compute. reflexivity.
  - vm_compute. reflexivity.
  - vm_compute. reflexivity.
  - vm_compute. discriminate.
  - vm_compute. intros [].
Defined.

(** X5.  Replies for a used-up identifier are dropped: once a reply
    carrying [i] has been delivered, or a timer of a call with identifier
    [i] has fired, nothing is recorded under [i], and every further reply
    carrying [i] leaves the whole state as it is, until a new call is
    given [i] again. *)
Theorem reply_for_used_identifier_dropped s ev s1 i :
  reachable s → step ev s = Some s1 → consumes s ev i →
  listener s1 !! toString10 i = None ∧
  ∀ m, m_id m = Some i → step (Message m) s1 = Some s1.
Proof.
  intros HI%reachable_Inv Hstep Hcons.
  assert (listener s1 !! toString10 i = None ∧ ticks s1 = []) as [Hnone Hq1].
  { destruct (step_inversion _ _ _ Hstep) as
      [(now & opt & timeout & -> & _)|[(q & r & -> & _)|
      [(m & -> & Hq & Hm)|[(k & t & -> & Hq & Ht & _ & _ & Hl & _ & Hq1 & _)|
      (-> & _)]]]]; try done.
    - simpl in Hcons.
      destruct (onMessage_reply _ _ _ _ HI Hcons Hm) as (_ & -> & _ & -> & _).
      split; [apply lookup_delete_eq|done].
    - destruct Hcons as (t' & g & Ht' & Hg & <-).
      assert (t' = t) as -> by congruence.
      rewrite (Hl g Hg). split; [apply lookup_delete_eq|done]. }
  split; [done|]. intros m Hid. apply step_Message; [done|].
  unfold onMessage. rewrite Hid.
  apply emit_none; [apply toString10_not_error|done].
Qed.

(** The timer of call 1001 fires; its reply comes in afterwards. *)
Lemma reply_for_used_identifier_dropped_witness :
  let s := after [Call 1001 demo_option None; Tick] (IPCClient_new true) in
  let s1 := after [FireTimer 0] s in
  listener s1 !! toString10 1001 = None ∧
  ∀ m, m_id m = Some 1001%Z → step (Message m) s1 = Some s1.
Proof.
  intros s s1.
  apply (reply_for_used_identifier_dropped s (FireTimer 0) s1 1001%Z).
  - exists true, [Call 1001%Z demo_option None; Tick]. vm_compute. reflexivity.
  - vm_compute. reflexivity.
  - exists {| t_call := 0; t_delay := 5000; t_fired := false |},
           (demo_frame 1001 Pending).
    vm_compute. done.
Defined.

(** ** The deferred send *)

Lemma requests_settle p o cs : f_msg <$> settle p o cs = f_msg <$> cs.
Proof.
  unfold settle. destruct (cs !! p) as [f|] eqn:Hf; [|done].
  rewrite list_fmap_insert, settle_frame_msg. apply list_insert_id.
  by rewrite list_lookup_fmap, Hf.
Qed.

Lemma requests_settle_all l o cs : f_msg <$> settle_all l o cs = f_msg <$> cs.
Proof.
  revert cs. induction l as [|p l IH]; intros cs; [done|].
  unfold settle_all in *. simpl. by rewrite IH, requests_settle.
Qed.

Lemma tick_callback_effects p s f :
  calls s !! p = Some f →
  effects (tick_callback p s)
  = effects s ++
    [if send_defined s
     then if connected s then Sent (f_msg f) else SendOnClosedChannel (f_msg f)
     else LogError "process.send is undefined"] ∧
  send_defined (tick_callback p s) = send_defined s.
Proof.
  intros Hf. unfold tick_callback. rewrite Hf.
  destruct (send_defined s) eqn:Hsd, (connected s); simpl; by rewrite ?Hsd.
Qed.

(** A turn taken with an empty queue, which leaves the requests and what
    was sent alone, keeps the queue invariant. *)
Lemma Queue_idle s s' :
  Queue s → ticks s = [] → ticks s' = [] → requests s' = requests s →
  outbox s' = outbox s → send_defined s' = send_defined s → Queue s'.
Proof.
  intros (d & Hlen & _ & Hout & _) Hq Hq' Hreq Hob Hsd.
  exists d. rewrite Hq', Hob, Hsd, Hreq. rewrite Hq in Hlen. simpl in *.
  split; [|split; [done|split; [done|]]].
  - unfold requests in Hreq.
    rewrite <- (length_fmap f_msg (calls s')), Hreq, length_fmap. done.
  - intros p Hp. by apply elem_of_nil in Hp.
Qed.

Lemma Queue_reachable s : reachable s → Queue s.
Proof.
  revert s. apply (reachable_invariant Queue).
  - intros b. exists 0. simpl. split; [done|]. split; [done|]. split.
    + unfold outbox. simpl. by destruct b.
    + intros p Hp. by apply elem_of_nil in Hp.
  - intros ev s s' HI%reachable_Inv HQ Hstep.
    destruct (step_inversion _ _ _ Hstep) as
      [(now & opt & timeout & -> & ->)|[(p & q & -> & Hq & ->)|
      [(m & -> & Hq & Hm)|[(k & t & -> & Hq & Ht & _ & Hc & _ & _ & Hq' & He)|
      (-> & Hq & _ & ->)]]]].
    + destruct HQ as (d & Hlen & Hseq & Hout & Hrec).
      destruct (send_env now opt timeout s) as (Hsd & _ & He).
      exists d. unfold outbox, requests.
      rewrite send_calls, send_ticks, send_listener, Hsd, He, !length_app.
      simpl. split; [lia|]. split; [|split].
      * rewrite Nat.add_1_r, seq_S, <- Hseq. f_equal. f_equal. lia.
      * unfold outbox, requests in Hout. rewrite Hout.
        destruct (send_defined s); [|done].
        rewrite fmap_app, take_app_le; [done|]. rewrite length_fmap. lia.
      * intros p [Hp| ->%list_elem_of_singleton]%elem_of_app.
        -- destruct (Hrec p Hp) as (f & l & Hf & Hpend & Hl & Hin).
           exists f. destruct (decide (toString10 (sm_id (f_msg f)) = toString10 now))
             as [Heq|Hne].
           ++ exists (l ++ [length (calls s)]).
              split; [by apply lookup_app_l_Some|]. split; [done|].
              rewrite Heq, lookup_insert_eq. rewrite Heq in Hl. rewrite Hl.
              split; [done|]. apply elem_of_app. by left.
           ++ exists l. split; [by apply lookup_app_l_Some|]. split; [done|].
              by rewrite lookup_insert_ne.
        -- eexists _, _. split; [by apply list_lookup_middle|].
           split; [done|]. simpl. rewrite lookup_insert_eq.
           split; [done|]. apply elem_of_app. right. left.
    + destruct HQ as (d & Hlen & Hseq & Hout & Hrec).
      rewrite Hq in Hlen, Hseq, Hrec. simpl in Hlen, Hseq.
      injection Hseq as -> Hseq.
      destruct (Hrec d) as (f & l & Hf & Hpend & Hl & Hin); [left|].
      destruct (tick_callback_frame d (set_ticks q s)) as (Hc & Hls & _ & Hqq).
      destruct (tick_callback_effects d (set_ticks q s) f Hf) as (He & Hsd).
      exists (S d). unfold outbox, requests. rewrite Hc, Hls, Hqq, He, Hsd.
      simpl. split; [lia|]. split; [done|]. split.
      * rewrite omap_app. unfold outbox, requests in Hout. rewrite Hout.
        destruct (send_defined s).
        -- rewrite (take_S_r _ _ (f_msg f)) by (by rewrite list_lookup_fmap, Hf).
           by destruct (connected s).
        -- done.
      * intros p Hp. apply Hrec. by right.
    + apply (Queue_idle s); [done|done| | | |].
      * destruct (m_id m) as [i|] eqn:Hid.
        -- destruct (onMessage_reply _ _ _ _ HI Hid Hm) as (_ & _ & _ & -> & _).
           done.
        -- destruct (onMessage_push _ _ _ Hid Hm) as (_ & _ & _ & -> & _). done.
      * unfold requests. destruct (m_id m) as [i|] eqn:Hid.
        -- destruct (onMessage_reply _ _ _ _ HI Hid Hm) as (-> & _).
           apply requests_settle_all.
        -- by destruct (onMessage_push _ _ _ Hid Hm) as (-> & _).
      * unfold outbox. destruct (m_id m) as [i|] eqn:Hid.
        -- by destruct (onMessage_reply _ _ _ _ HI Hid Hm)
             as (_ & _ & _ & _ & -> & _).
        -- destruct (onMessage_push _ _ _ Hid Hm)
             as (_ & _ & _ & _ & _ & _ & e & -> & He).
           by rewrite omap_app, He, app_nil_r.
      * destruct (m_id m) as [i|] eqn:Hid.
        -- by destruct (onMessage_reply _ _ _ _ HI Hid Hm)
             as (_ & _ & _ & _ & _ & -> & _).
        -- by destruct (onMessage_push _ _ _ Hid Hm) as (_ & _ & _ & _ & -> & _).
    + apply (Queue_idle s); [done|done|done| | |].
      * unfold requests. rewrite Hc. apply requests_settle.
      * unfold outbox. by rewrite He.
      * simpl in Hstep. rewrite Hq, Ht in Hstep.
        destruct (t_fired t); [done|]. injection Hstep as <-.
        unfold timeout_callback. by destruct (calls _ !! _).
    + by apply (Queue_idle s).
Qed.

(** X6.  Requests go out once each, in call order.  In every reachable
    state the calls still waiting in the [nextTick] queue are the most
    recent ones, oldest first, and what has been handed to [process.send]
    is exactly the sequence of requests of all earlier calls, in the order
    of the calls; when [process.send] is undefined nothing has been handed
    over at all. *)
Theorem requests_sent_in_call_order s :
  reachable s →
  let d := length (calls s) - length (ticks s) in
  ticks s = seq d (length (ticks s)) ∧
  outbox s = (if send_defined s then take d (requests s) else []) ∧
  (ticks s = [] → send_defined s = true → outbox s = requests s).
Proof.
  intros (d & Hlen & Hseq & Hout & _)%Queue_reachable.
  assert (length (calls s) - length (ticks s) = d) as -> by lia. simpl.
  split; [done|]. split; [done|]. intros Hq Hsd. rewrite Hout, Hsd.
  rewrite Hq in Hlen. simpl in Hlen. apply take_ge.
  unfold requests. rewrite length_fmap. lia.
Qed.

(** Three calls, the third still queued when the first reply arrives. *)
Lemma requests_sent_in_call_order_witness :
  let s := after [Call 1001 demo_option None; Call 1002 demo_option None;
                  Tick; Tick; Message (demo_reply 1002 None None);
                  Call 1003 demo_option None] (IPCClient_new true) in
  let d := length (calls s) - length (ticks s) in
  ticks s = seq d (length (ticks s)) ∧
  outbox s = (if send_defined s then take d (requests s) else []) ∧
  (ticks s = [] → send_defined s = true → outbox s = requests s).
Proof.
  intros s. apply (requests_sent_in_call_order s).
  exists true, [Call 1001%Z demo_option None; Call 1002%Z demo_option None;
                Tick; Tick; Message (demo_reply 1002 None None);
                Call 1003%Z demo_option None].
  vm_compute. reflexivity.
Defined.

(** X7.  Registration comes before sending.  When a deferred send runs in
    a reachable state, it is the one of the oldest queued call; that call
    is recorded in the table under its own identifier and its promise is
    pending, and the turn does nothing but append one line to the effects:
    the request handed to [process.send], or the error line when
    [process.send] is undefined. *)
Theorem deferred_send_finds_call_recorded s s' :
  reachable s → step Tick s = Some s' →
  ∃ p f l,
    ticks s = p :: ticks s' ∧ p = length (calls s) - length (ticks s) ∧
    calls s' = calls s ∧ listener s' = listener s ∧ timers s' = timers s ∧
    calls s !! p = Some f ∧ f_promise f = Pending ∧
    listener s !! toString10 (sm_id (f_msg f)) = Some l ∧ p ∈ l ∧
    effects s' = effects s ++
      [if send_defined s
       then if connected s then Sent (f_msg f)
            else SendOnClosedChannel (f_msg f)
       else LogError "process.send is undefined"].
Proof.
  intros (d & Hlen & Hseq & _ & Hrec)%Queue_reachable Hstep.
  simpl in Hstep. destruct (ticks s) as [|p q] eqn:Hq; [done|].
  injection Hstep as <-. simpl in Hlen, Hseq. injection Hseq as -> _.
  destruct (Hrec d) as (f & l & Hf & Hpend & Hl & Hin); [left|].
  destruct (tick_callback_frame d (set_ticks q s)) as (Hc & Hls & Ht & Hqq).
  destruct (tick_callback_effects d (set_ticks q s) f Hf) as (He & _).
  exists d, f, l. rewrite Hqq, Hc, Hls, Ht, He. simpl.
  repeat split; try done. lia.
Qed.

Lemma deferred_send_finds_call_recorded_witness :
  let s := after [Call 1001 demo_option None] (IPCClient_new false) in
  let s' := after [Tick] s in
  ∃ p f l,
    ticks s = p :: ticks s' ∧ p = length (calls s) - length (ticks s) ∧
    calls s' = calls s ∧ listener s' = listener s ∧ timers s' = timers s ∧
    calls s !! p = Some f ∧ f_promise f = Pending ∧
    listener s !! toString10 (sm_id (f_msg f)) = Some l ∧ p ∈ l ∧
    effects s' = effects s ++
      [if send_defined s
       then if connected s then Sent (f_msg f)
            else SendOnClosedChannel (f_msg f)
       else LogError "process.send is undefined"].
Proof.
  intros s s'. apply (deferred_send_finds_call_recorded s s').
  - exists false, [Call 1001%Z demo_option None]. vm_compute. reflexivity.
  - vm_compute. reflexivity.
Defined.

(** ** Timers *)

Lemma settle_pending_inv q o cs p f :
  o ≠ Pending → settle q o cs !! p = Some f → f_promise f = Pending →
  cs !! p = Some f.
Proof.
  intros Ho Hf Hp. destruct (decide (q = p)) as [->|Hne].
  - destruct (cs !! p) as [g|] eqn:Hg.
    + rewrite (settle_lookup_eq _ _ _ _ Hg) in Hf. injection Hf as <-.
      unfold settle_frame in *.
      destruct (f_promise g) eqn:Hgp; simpl in Hp; congruence.
    + unfold settle in Hf. rewrite Hg in Hf. congruence.
  - by rewrite settle_lookup_ne in Hf.
Qed.

Lemma settle_all_pending_inv l o cs p f :
  o ≠ Pending → settle_all l o cs !! p = Some f → f_promise f = Pending →
  cs !! p = Some f.
Proof.
  intros Ho. revert cs. induction l as [|q l IH]; intros cs Hf Hp; [done|].
  unfold settle_all in *. simpl in Hf.
  eapply settle_pending_inv; [done| |done]. by apply IH.
Qed.

(** A call that is pending after a turn was there, and pending, before
    it, unless the turn is the call itself. *)
Lemma step_pending_inv ev s s' p f :
  step ev s = Some s' → calls s' !! p = Some f → f_promise f = Pending →
  calls s !! p = Some f ∨ (p = length (calls s) ∧ ∃ now, issues ev now).
Proof.
  intros Hstep Hf Hp.
  destruct (step_inversion _ _ _ Hstep) as
    [(now & opt & timeout & -> & ->)|[(q & r & -> & Hq & ->)|
    [(m & -> & Hq & Hm)|[(k & t & -> & Hq & Ht & _ & Hc & _)|
    (-> & _ & _ & ->)]]]].
  - rewrite send_calls in Hf.
    apply lookup_snoc_Some in Hf as [[_ Hf]|[-> _]]; [by left|].
    right. split; [done|]. by exists now.
  - left. destruct (tick_callback_frame q (set_ticks r s)) as (Hc & _).
    by rewrite Hc in Hf.
  - left. rewrite (onMessage_calls _ _ _ Hm) in Hf.
    destruct (m_id m); [|done].
    eapply settle_all_pending_inv; [apply outcome_not_pending|done|done].
  - left. rewrite Hc in Hf.
    eapply (settle_pending_inv _ (Rejected "IPCTimeout")); [done|done|done].
  - by left.
Qed.

(** X8.  A timer that has fired leaves no pending call behind: in every
    reachable state the call that armed a fired timer is settled and has
    no record in the table. *)
Theorem fired_timer_means_settled s k t :
  reachable s → timers s !! k = Some t → t_fired t = true →
  (∃ f, calls s !! t_call t = Some f ∧ f_promise f ≠ Pending) ∧
  ∀ n l, listener s !! n = Some l → t_call t ∉ l.
Proof.
  intros Hreach Ht Hfired.
  assert (∃ f, calls s !! t_call t = Some f ∧ f_promise f ≠ Pending)
    as (f & Hf & Hsettled).
  { revert s Hreach k t Ht Hfired.
    apply (reachable_invariant (fun s => ∀ k t,
      timers s !! k = Some t → t_fired t = true →
      ∃ f, calls s !! t_call t = Some f ∧ f_promise f ≠ Pending)).
    - intros b k t Hk. by destruct k.
    - intros ev s s' HI%reachable_Inv IH Hstep k t Hk Hfired.
      destruct (step_inversion _ _ _ Hstep) as
        [(now & opt & timeout & -> & ->)|[(q & r & -> & Hq & ->)|
        [(m & -> & Hq & Hm)|[(k0 & t0 & -> & Hq & Ht0 & _ & Hc & _ & Hts & _)|
        (-> & _ & _ & ->)]]]].
      + rewrite send_timers in Hk. rewrite send_calls.
        apply lookup_app_Some in Hk as [Hk|[_ Hk]].
        * destruct (IH _ _ Hk Hfired) as (f & Hf & Hs).
          exists f. split; [by apply lookup_app_l_Some|done].
        * case_decide; [|by rewrite lookup_nil in Hk].
          apply list_lookup_singleton_Some in Hk as [_ <-]. done.
      + destruct (tick_callback_frame q (set_ticks r s)) as (Hc & _ & Ht & _).
        rewrite Hc. rewrite Ht in Hk. by eapply IH.
      + rewrite (onMessage_timers _ _ _ Hm) in Hk.
        destruct (IH _ _ Hk Hfired) as (f & Hf & Hs).
        exists f. split; [|done]. rewrite (onMessage_calls _ _ _ Hm).
        destruct (m_id m); [|done]. by apply settle_all_settled.
      + rewrite Hts in Hk. rewrite Hc. destruct (decide (k0 = k)) as [->|Hne].
        * rewrite list_lookup_insert_eq in Hk by (by eapply lookup_lt_Some).
          injection Hk as <-. simpl.
          destruct (lookup_lt_is_Some_2 (calls s) (t_call t0)) as [f0 Hf0];
            [by eapply inv_timers|].
          rewrite (settle_lookup_eq _ _ _ _ Hf0). eexists. split; [done|].
          unfold settle_frame.
          destruct (f_promise f0) eqn:Hp0; simpl; congruence.
        * rewrite list_lookup_insert_ne in Hk by done.
          destruct (IH _ _ Hk Hfired) as (f & Hf & Hs).
          exists f. split; [|done]. by apply settle_settled.
      + by eapply IH. }
  split; [eauto|]. intros n l Hl Hin.
  destruct (inv_registered s (reachable_Inv _ Hreach) _ _ _ Hl Hin)
    as (f' & Hf' & _ & Hp).
  congruence.
Qed.

(** The reply came first; the timer fired afterwards. *)
Lemma fired_timer_means_settled_witness :
  let s := after [Call 1001 demo_option None; Tick;
                  Message (demo_reply 1001 (Some (JStr "abc123")) None);
                  FireTimer 0] (IPCClient_new true) in
  (∃ f, calls s !! 0 = Some f ∧ f_promise f ≠ Pending) ∧
  ∀ n l, listener s !! n = Some l → 0 ∉ l.
Proof.
  intros s.
  apply (fired_timer_means_settled s 0
           {| t_call := 0; t_delay := 5000; t_fired := true |}).
  - exists true, [Call 1001%Z demo_option None; Tick;
                  Message (demo_reply 1001 (Some (JStr "abc123")) None);
                  FireTimer 0].
    vm_compute. reflexivity.
  - vm_compute. reflexivity.
  - reflexivity.
Defined.

(** ** The facade *)

Lemma Armed_step d ev s s' :
  Armed s → facade_turn d ev → step ev s = Some s' → Armed s'.
Proof.
  intros HA Hturn Hstep p f Hf Hp.
  destruct (step_pending_inv _ _ _ _ _ Hstep Hf Hp) as [Hold|[-> [now Hiss]]].
  - destruct (HA p f Hold Hp) as (k & t & Hk & Hcall & Hdelay & Hfired).
    destruct (step_inversion _ _ _ Hstep) as
      [(now & opt & timeout & -> & ->)|[(q & r & -> & Hq & ->)|
      [(m & -> & Hq & Hm)|[(k0 & t0 & -> & Hq & Ht0 & _ & Hc & _ & Hts & _)|
      (-> & _ & _ & ->)]]]].
    + exists k, t. rewrite send_timers. split; [by apply lookup_app_l_Some|done].
    + exists k, t.
      by destruct (tick_callback_frame q (set_ticks r s)) as (_ & _ & -> & _).
    + exists k, t. by rewrite (onMessage_timers _ _ _ Hm).
    + exists k, t. rewrite Hts. split; [|done].
      rewrite list_lookup_insert_ne; [done|]. intros ->.
      assert (t0 = t) as -> by congruence. rewrite Hc, Hcall in Hf.
      rewrite (settle_lookup_eq _ _ _ _ Hold), (settle_frame_pending _ _ Hp) in Hf.
      injection Hf as Hf. rewrite <- Hf in Hp. done.
    + by exists k, t.
  - destruct ev as [now' opt timeout| | | |]; try done.
    destruct Hturn as (c & -> & ->). apply step_Call in Hstep as ->.
    exists (length (timers s)), {| t_call := length (calls s); t_delay := 5000;
                                   t_fired := false |}.
    rewrite send_timers. simpl. split; [by apply list_lookup_middle|done].
Qed.

Lemma Armed_run d evs s s' :
  Armed s → Forall (facade_turn d) evs → run evs s = Some s' → Armed s'.
Proof.
  revert s. induction evs as [|ev evs IH]; intros s HA Hall; simpl.
  - by intros [= <-].
  - apply Forall_cons in Hall as [Hev Hall].
    destruct (step ev s) as [s1|] eqn:Hstep; [|done].
    apply IH; [|done]. by eapply Armed_step.
Qed.

(** X9.  A client that is only used through its facade never leaves a
    call without a deadline: every pending call has a timer of 5000 ms
    that has not fired, and once the [nextTick] queue is empty the firing
    of that timer is possible and rejects the call with IPCTimeout. *)
Theorem facade_calls_keep_a_timer d b evs s p :
  Forall (facade_turn d) evs → run evs (IPCClient_new b) = Some s →
  promise_of s p = Some Pending →
  ∃ k t, timers s !! k = Some t ∧ t_call t = p ∧ t_delay t = 5000%Z ∧
         t_fired t = false ∧
         (ticks s = [] →
          ∃ s', step (FireTimer k) s = Some s' ∧
                promise_of s' p = Some (Rejected "IPCTimeout")).
Proof.
  intros Hall Hrun (f & Hf & Hp)%promise_of_Some.
  assert (Armed s) as HA.
  { eapply Armed_run; [|done|done]. intros q g Hg. by destruct q. }
  destruct (HA p f Hf Hp) as (k & t & Hk & Hcall & Hdelay & Hfired).
  exists k, t. split; [done|]. split; [done|]. split; [done|]. split; [done|].
  intros Hq. eexists. split; [by apply step_FireTimer_enabled|].
  unfold promise_of. rewrite timeout_callback_calls. simpl. rewrite Hcall.
  by rewrite (settle_lookup_eq _ _ _ _ Hf), (settle_frame_pending _ _ Hp).
Qed.

(** Two facade calls collide; the timer of the first removes the record of
    the second, which still has its own timer. *)
Lemma facade_calls_keep_a_timer_witness :
  let evs := [facade_event demo_define 1001 (reserveation (reserveation_add JNull));
              Tick;
              facade_event demo_define 1001 (rule (rule_delete (JNum 42)));
              Tick; FireTimer 0] in
  let s := after evs (IPCClient_new true) in
  ∃ k t, timers s !! k = Some t ∧ t_call t = 1 ∧ t_delay t = 5000%Z ∧
         t_fired t = false ∧
         (ticks s = [] →
          ∃ s', step (FireTimer k) s = Some s' ∧
                promise_of s' 1 = Some (Rejected "IPCTimeout")).
Proof.
  intros evs s.
  apply (facade_calls_keep_a_timer demo_define true evs s 1).
  - repeat (apply Forall_cons; split;
              [first [exact I|eexists; split; reflexivity]|]).
    apply Forall_nil_2.
  - vm_compute. reflexivity.
  - vm_compute. reflexivity.
Defined.

(** X10.  A facade call end to end.  With the channel up and the
    [nextTick] queue empty, calling any facade method and letting its
    deferred send run hands exactly one request to [process.send]: its
    identifier is the clock reading, its model tag is the one of the
    method's group, and function tag and arguments are those of the
    method.  One timer of 5000 ms is armed.  A reply that carries the same
    identifier then settles the returned promise with the reply's
    outcome. *)
Theorem facade_request_and_reply d c now s :
  ticks s = [] → send_defined s = true → connected s = true →
  let p := length (calls s) in
  let req := facade_option d c in
  ∃ s2, run [facade_event d now c; Tick] s = Some s2 ∧
        effects s2 = effects s ++
          [Sent {| sm_id := now; sm_model := ModelName_value d (group c);
                   sm_func := func req; sm_args := args req |}] ∧
        timers s2 = timers s ++
          [{| t_call := p; t_delay := 5000; t_fired := false |}] ∧
        promise_of s2 p = Some Pending ∧
        ∀ m, m_id m = Some now →
          ∃ s3, step (Message m) s2 = Some s3 ∧
                promise_of s3 p = Some (outcome m).
Proof.
  intros Hq Hsd Hcn p req.
  assert (model req = ModelName_value d (group c)) as Hmodel.
  { subst req. destruct c as [c|c|c]; by destruct c. }
  pose proof (send_calls now req None s) as Hc.
  pose proof (send_ticks now req None s) as Htk.
  pose proof (send_timers now req None s) as Htm.
  pose proof (send_listener now req None s) as Hls.
  destruct (send_env now req None s) as (Hsd1 & Hcn1 & Heff).
  remember (snd (send now req None s)) as s1 eqn:Hs1.
  fold p in Hc, Htk, Htm, Hls. rewrite Hq in Htk. simpl in Htk, Htm.
  rewrite Hmodel in Hc.
  set (fr := {| f_msg := {| sm_id := now; sm_model := ModelName_value d (group c);
                  sm_func := func req; sm_args := args req |};
                f_promise := Pending |}) in *.
  assert (calls s1 !! p = Some fr) as Hfr.
  { rewrite Hc. by apply list_lookup_middle. }
  set (s2 := add_effect (Sent (f_msg fr)) (set_ticks [] s1)).
  assert (step Tick s1 = Some s2) as Htick.
  { rewrite (step_Tick p [] s1 Htk). unfold tick_callback. simpl.
    by rewrite Hfr, Hsd1, Hsd, Hcn1, Hcn. }
  exists s2. split; [|split; [|split; [|split]]].
  - apply (run_two _ _ _ s1); [|done]. unfold facade_event. by rewrite Hs1.
  - simpl. by rewrite Heff.
  - done.
  - apply promise_of_Some. by exists fr.
  - intros m Hid.
    set (l := default [] (listener s !! toString10 now) ++ [p]) in *.
    assert (listener s2 !! toString10 now = Some l) as Hl.
    { simpl. rewrite Hls. apply lookup_insert_eq. }
    eexists. split.
    + apply step_Message; [done|]. unfold onMessage, emit.
      rewrite Hid, Hl. reflexivity.
    + unfold promise_of. rewrite walk_calls.
      rewrite (settle_all_in l (outcome m) (calls s2) p fr); [done| | |done|done].
      * apply outcome_not_pending.
      * apply elem_of_app. right. left.
Qed.

Lemma facade_request_and_reply_witness :
  let d := demo_define in
  let c := reserveation (reserveation_add (JObj [("channelId", JNum 3)])) in
  let s := IPCClient_new true in
  let p := length (calls s) in
  let req := facade_option d c in
  ∃ s2, run [facade_event d 1001 c; Tick] s = Some s2 ∧
        effects s2 = effects s ++
          [Sent {| sm_id := 1001; sm_model := ModelName_value d (group c);
                   sm_func := func req; sm_args := args req |}] ∧
        timers s2 = timers s ++
          [{| t_call := p; t_delay := 5000; t_fired := false |}] ∧
        promise_of s2 p = Some Pending ∧
        ∀ m, m_id m = Some 1001%Z →
          ∃ s3, step (Message m) s2 = Some s3 ∧
                promise_of s3 p = Some (outcome m).
Proof.
  intros d c s.
  apply (facade_request_and_reply d c 1001%Z s); reflexivity.
Defined.

(** ** Bounds on table and timers *)

Lemma pending_count_settle_all l o cs :
  o ≠ Pending → NoDup l →
  (∀ p, p ∈ l → ∃ f, cs !! p = Some f ∧ f_promise f = Pending) →
  pending_count (settle_all l o cs) + length l = pending_count cs.
Proof.
  intros Ho. revert cs. induction l as [|p l IH]; intros cs Hnd Hall.
  - simpl. unfold settle_all. simpl. lia.
  - apply NoDup_cons in Hnd as [Hp Hnd].
    destruct (Hall p) as (f & Hf & Hpend); [left|].
    unfold settle_all in *. simpl. rewrite <- Nat.add_succ_comm. simpl.
    rewrite IH; [by eapply pending_count_settle|done|].
    intros q Hq. destruct (Hall q) as (g & Hg & Hgp); [by right|].
    exists g. split; [|done]. rewrite settle_lookup_ne; [done|].
    intros ->. done.
Qed.

(** Records that all belong to distinct pending frames cannot outnumber
    the pending frames. *)
Lemma table_entries_bound (tbl : gmap string (list nat)) :
  ∀ cs,
    (∀ n l, tbl !! n = Some l →
       NoDup l ∧ ∀ p, p ∈ l →
         ∃ f, cs !! p = Some f ∧ f_promise f = Pending ∧
              n = toString10 (sm_id (f_msg f))) →
    table_entries tbl ≤ pending_count cs.
Proof.
  induction tbl as [|k l m Hk IH] using map_ind; intros cs Hall.
  - unfold table_entries. rewrite map_fold_empty. lia.
  - rewrite table_entries_insert by done.
    destruct (Hall k l) as [Hnd Hl]; [apply lookup_insert_eq|].
    rewrite <- (pending_count_settle_all l (Rejected "IPCTimeout") cs);
      [|done|done|].
    + specialize (IH (settle_all l (Rejected "IPCTimeout") cs)).
      assert (table_entries m
              ≤ pending_count (settle_all l (Rejected "IPCTimeout") cs));
        [|lia].
      apply IH. intros n l' Hl'.
      assert (n ≠ k) as Hne by (intros ->; congruence).
      destruct (Hall n l') as [Hnd' Hl'']; [by rewrite lookup_insert_ne|].
      split; [done|]. intros p Hp.
      destruct (Hl'' p Hp) as (f & Hf & Hpend & Hname).
      exists f. split; [|done]. rewrite settle_all_notin; [done|].
      intros Hin. destruct (Hl p Hin) as (f' & Hf' & _ & Hname').
      congruence.
    + intros p Hp. destruct (Hl p Hp) as (f & Hf & Hpend & _). eauto.
Qed.

(** X11.  Listeners do not pile up: in every reachable state, collisions
    or not, the table holds at most as many records as there are calls in
    flight. *)
Theorem table_never_exceeds_in_flight s :
  reachable s → table_size s ≤ in_flight s.
Proof.
  intros Hreach. pose proof (reachable_Inv _ Hreach) as HI.
  apply table_entries_bound. intros n l Hl.
  split; [by eapply recorded_once|]. intros p Hp.
  destruct (inv_registered s HI _ _ _ Hl Hp) as (f & Hf & Hname & Hpend).
  eauto.
Qed.

(** Three calls on one identifier; the timer of the second has fired. *)
Lemma table_never_exceeds_in_flight_witness :
  let s := after [Call 1001 demo_option None; Call 1001 demo_option None;
                  Tick; Tick; FireTimer 1; Call 1001 demo_option None; Tick]
             (IPCClient_new true) in
  table_size s ≤ in_flight s.
Proof.
  intros s. apply (table_never_exceeds_in_flight s).
  exists true, [Call 1001%Z demo_option None; Call 1001%Z demo_option None;
                Tick; Tick; FireTimer 1; Call 1001%Z demo_option None; Tick].
  vm_compute. reflexivity.
Defined.

Lemma timers_of_one_call_coincide s :
  reachable s → ∀ k1 k2 t1 t2,
  timers s !! k1 = Some t1 → timers s !! k2 = Some t2 →
  t_call t1 = t_call t2 → k1 = k2.
Proof.
  revert s.
  apply (reachable_invariant (fun s => ∀ k1 k2 t1 t2,
    timers s !! k1 = Some t1 → timers s !! k2 = Some t2 →
    t_call t1 = t_call t2 → k1 = k2)).
  - intros b k1 k2 t1 t2 Hk1. by destruct k1.
  - intros ev s s' HI%reachable_Inv IH Hstep k1 k2 t1 t2.
    destruct (step_inversion _ _ _ Hstep) as
      [(now & opt & timeout & -> & ->)|[(q & r & -> & Hq & ->)|
      [(m & -> & Hq & Hm)|[(k0 & t0 & -> & Hq & Ht0 & _ & _ & _ & Hts & _)|
      (-> & _ & _ & ->)]]]].
    + rewrite send_timers. case_decide; [|rewrite app_nil_r; apply IH].
      intros [[Hlt1 H1]|[-> <-]]%lookup_snoc_Some
             [[Hlt2 H2]|[-> <-]]%lookup_snoc_Some Hcall; simpl in Hcall.
      * by eapply IH.
      * apply (inv_timers s HI) in H1. lia.
      * apply (inv_timers s HI) in H2. lia.
      * done.
    + destruct (tick_callback_frame q (set_ticks r s)) as (_ & _ & -> & _).
      apply IH.
    + rewrite (onMessage_timers _ _ _ Hm). apply IH.
    + rewrite Hts. intros H1 H2 Hcall.
      assert (∀ k t, <[k0 := {| t_call := t_call t0; t_delay := t_delay t0;
                               t_fired := true |}]> (timers s) !! k = Some t →
                ∃ t', timers s !! k = Some t' ∧ t_call t' = t_call t) as Hsame.
      { intros k t Hk. destruct (decide (k0 = k)) as [<-|Hne].
        - rewrite list_lookup_insert_eq in Hk by (by eapply lookup_lt_Some).
          injection Hk as <-. eauto.
        - rewrite list_lookup_insert_ne in Hk by done. eauto. }
      destruct (Hsame _ _ H1) as (t1' & H1' & Hc1).
      destruct (Hsame _ _ H2) as (t2' & H2' & Hc2).
      eapply IH; [done|done|congruence].
    + apply IH.
Qed.

(** X12.  One timer per call at most: in every reachable state two
    different timers belong to two different calls, so a call is rejected
    with IPCTimeout only by the single timer it armed itself. *)
Theorem one_timer_per_call s k1 k2 t1 t2 :
  reachable s → timers s !! k1 = Some t1 → timers s !! k2 = Some t2 →
  k1 ≠ k2 → t_call t1 ≠ t_call t2.
Proof.
  intros Hreach H1 H2 Hne Hcall. apply Hne.
  by eapply (timers_of_one_call_coincide s Hreach).
Qed.

(** Two colliding calls, each with its own timer. *)
Lemma one_timer_per_call_witness :
  let s := after [Call 1001 demo_option None; Call 1001 demo_option None;
                  Tick; Tick; FireTimer 0] (IPCClient_new true) in
  0 ≠ 1.
Proof.
  intros s.
  apply (one_timer_per_call s 0 1
           {| t_call := 0; t_delay := 5000; t_fired := true |}
           {| t_call := 1; t_delay := 5000; t_fired := false |}).
  - exists true, [Call 1001%Z demo_option None; Call 1001%Z demo_option None;
                  Tick; Tick; FireTimer 0].
    vm_compute. reflexivity.
  - vm_compute. reflexivity.
  - vm_compute. reflexivity.
  - lia.
Defined.
